(** * The hybrid game client: native bridge, transport router, puzzle manager

    A shallow embedding of the three JavaScript modules of the client,

      - [apiBridge.js]            (module [ApiBridge]),
      - [api/game-api.js]         (module [GameAPI]),
      - [api/puzzle-manager-api.js] (module [PuzzleManager]),

    together with the statements of the specification that concern them.

    Conventions of the embedding.

    - JavaScript values are the trees of type [JS.value].  Numbers are the
      integer-valued ones plus [NaN]; that covers the timestamps, HTTP status
      codes and identifiers the code handles.  Strings are byte strings (the
      UTF-8 text).
    - [String.prototype.toLowerCase] and [String.prototype.trim] are
      builtins of the host as well (class [JS.Strings]): what they do to
      text outside ASCII is the host's Unicode tables, and the development
      relies only on what they do to ASCII text, which
      [JS.ascii_toLowerCase] and [JS.ascii_trim] spell out.
    - [JSON.parse] and [JSON.stringify] are builtins of the host, not code of
      the client: the development is parametric in them (class [JS.JSON]),
      and [MiniJSON] gives one executable instance to run the model on
      concrete inputs.
    - The [window] object is split into the bridge object [window.Android]
      and the table of callback properties the bridge creates; every key of
      that table starts with [__native_callback_], so the two cannot meet.
    - An [async] function is a [task]: a tree whose nodes are the [await]
      points.  At such a node the function yields its state, and the event
      loop hands back the outcome of the awaited call together with the
      state as it is by then, since other handlers may have run meanwhile.
    - The manager looks up six DOM elements in its constructor; the model
      keeps the properties of those elements that the code reads or writes
      and takes the elements to exist.
    - Values are finite trees without functions, so [JSON.stringify] returns
      a string for every object it is given; [localStorage] has room for
      what is stored, and the body of an HTTP response can be read.

    - Parsing an HTML text and selecting an element in it is the host's
      work as well (class [PuzzleSession.DOM]).

    The modules [BridgeProps], [RouterProps] and [ManagerProps] hold the
    statements; [Demo] is a small page they are run on.  [PuzzleSession]
    adds the opening of a puzzle to the model, and [BridgeMore],
    [RouterMore] and [ManagerMore] hold further properties of the code. *)

From Stdlib Require Import Ascii String ZArith Lia.
From stdpp Require Import gmap strings list pretty.

Set Warnings "-register-all".

Open Scope string_scope.
Open Scope list_scope.

(* ===================================================================== *)
(** ** JavaScript values and the builtins the client relies on *)
(* ===================================================================== *)

Module JS.

Inductive value : Type :=
| VUndefined
| VNull
| VBool (b : bool)
| VNum (n : Z)
| VNaN
| VStr (s : string)
| VArr (items : list value)
| VObj (fields : list (string * value))
| VError (name message : string).

(** The outcome of evaluating something that may throw. *)
Inductive completion (A : Type) : Type :=
| Normal (a : A)
| Throw (e : value).
Arguments Normal {A} a.
Arguments Throw {A} e.

(** The outcome of an awaited promise. *)
Inductive outcome : Type :=
| Resolved (v : value)
| Failed (e : value).

(** [ToBoolean]: what [if (x)] and [!x] test. *)
Definition to_boolean (v : value) : bool :=
  match v with
  | VUndefined | VNull | VNaN => false
  | VBool b => b
  | VNum n => negb (n =? 0)%Z
  | VStr s => negb (String.eqb s "")
  | VArr _ | VObj _ | VError _ _ => true
  end.

(** [typeof v === 'object' && v !== null]. *)
Definition is_object (v : value) : bool :=
  match v with
  | VArr _ | VObj _ | VError _ _ => true
  | _ => false
  end.

(** [Array.isArray]. *)
Definition is_array (v : value) : bool :=
  match v with VArr _ => true | _ => false end.

Fixpoint join (sep : string) (parts : list string) : string :=
  match parts with
  | [] => ""
  | [p] => p
  | p :: rest => p +:+ sep +:+ join sep rest
  end.

(** [ToString], as template literals and [JSON.parse] apply it. *)
Fixpoint to_string (v : value) : string :=
  match v with
  | VUndefined => "undefined"
  | VNull => "null"
  | VBool true => "true"
  | VBool false => "false"
  | VNum n => pretty n
  | VNaN => "NaN"
  | VStr s => s
  | VArr items =>
      join "," ((fix each (l : list value) : list string :=
                   match l with
                   | [] => []
                   | VUndefined :: l' | VNull :: l' => "" :: each l'
                   | x :: l' => to_string x :: each l'
                   end) items)
  | VObj _ => "[object Object]"
  | VError name message =>
      if String.eqb message "" then name
      else if String.eqb name "" then message
      else name +:+ ": " +:+ message
  end.

(** Property read [o.key] on an object value; a missing property reads as
    [undefined].  Reading a property of [null] or [undefined] throws. *)
Fixpoint assoc (key : string) (fields : list (string * value)) : value :=
  match fields with
  | [] => VUndefined
  | (k, v) :: rest => if String.eqb k key then v else assoc key rest
  end.

Definition type_error (message : string) : value := VError "TypeError" message.

Definition get (key : string) (v : value) : completion value :=
  match v with
  | VUndefined | VNull =>
      Throw (type_error ("Cannot read properties of " +:+ to_string v))
  | VObj fields => Normal (assoc key fields)
  | VError _ message => Normal (if String.eqb key "message" then VStr message else VUndefined)
  | _ => Normal VUndefined
  end.

(** [o.key] at a place where an earlier read has shown [o] to be neither
    [null] nor [undefined]. *)
Definition prop (key : string) (v : value) : value :=
  match get key v with Normal x => x | Throw _ => VUndefined end.

(** Strict equality [===] against a string. *)
Definition strict_eq_string (v : value) (s : string) : bool :=
  match v with VStr s' => String.eqb s' s | _ => false end.

(** *** The two string methods of the answer normalisation *)

(** On ASCII text both are plain functions of the bytes. *)

Definition is_upper (a : ascii) : bool :=
  let n := nat_of_ascii a in (65 <=? n)%nat && (n <=? 90)%nat.

Definition lower_char (a : ascii) : ascii :=
  if is_upper a then ascii_of_nat (nat_of_ascii a + 32) else a.

Fixpoint ascii_toLowerCase (s : string) : string :=
  match s with
  | EmptyString => EmptyString
  | String a rest => String (lower_char a) (ascii_toLowerCase rest)
  end.

(** Tab, line feed, vertical tab, form feed, carriage return, space: the
    white space and line terminators of JavaScript below 128. *)
Definition is_white (a : ascii) : bool :=
  let n := nat_of_ascii a in ((9 <=? n)%nat && (n <=? 13)%nat) || (n =? 32)%nat.

Fixpoint ascii_trimStart (s : string) : string :=
  match s with
  | EmptyString => EmptyString
  | String a rest => if is_white a then ascii_trimStart rest else s
  end.

Fixpoint ascii_trimEnd (s : string) : string :=
  match s with
  | EmptyString => EmptyString
  | String a rest =>
      match ascii_trimEnd rest with
      | EmptyString => if is_white a then EmptyString else String a EmptyString
      | kept => String a kept
      end
  end.

Definition ascii_trim (s : string) : string := ascii_trimEnd (ascii_trimStart s).

(** Every byte is below 128. *)
Definition ascii_only (s : string) : bool :=
  forallb (fun a => (nat_of_ascii a <? 128)%nat) (list_ascii_of_string s).

(** [s.toLowerCase()] and [s.trim()] of the host.  Outside ASCII they
    follow the Unicode case mappings and white space of the host (accented
    and full-width capitals, U+00A0, U+3000, ...), of which nothing is
    assumed; on ASCII text they are the two functions above. *)
Class Strings : Type := {
  toLowerCase : string -> string;
  trim : string -> string;
  toLowerCase_ascii : forall s, ascii_only s = true -> toLowerCase s = ascii_toLowerCase s;
  trim_ascii : forall s, ascii_only s = true -> trim s = ascii_trim s;
}.

(** The host as far as a page with ASCII text can tell: the instance the
    model is run with on concrete inputs. *)
#[global] Instance AsciiStrings : Strings := {|
  toLowerCase := ascii_toLowerCase;
  trim := ascii_trim;
  toLowerCase_ascii := fun _ _ => eq_refl;
  trim_ascii := fun _ _ => eq_refl;
|}.

(** The double quote character, as a one-character string. *)
Definition quote_mark : string := String (ascii_of_nat 34) EmptyString.

(** *** The host's JSON builtins *)

Class JSON : Type := {
  JSON_parse : string -> completion value;
  JSON_stringify : value -> string;
}.

(** *** Console *)

Inductive log_entry : Type :=
| ConsoleLog (text : string) (data : option value)
| ConsoleError (text : string) (data : option value).

End JS.

Import JS.

(* ===================================================================== *)
(** ** apiBridge.js: promises over a fire-and-forget native bridge *)
(* ===================================================================== *)

Module ApiBridge.

Inductive settlement : Type :=
| Pending
| Fulfilled (v : value)
| Rejected (e : value).

(** The closure assigned to [window[callbackName]]: it captures the method
    name, its own name and the [resolve]/[reject] pair of one promise. *)
Record callback : Type := {
  cb_method : string;
  cb_name : string;
  cb_promise : nat;
}.

#[global] Instance callback_eq_dec : EqDecision callback.
Proof. solve_decision. Defined.

(** What a bridge method does before it returns: it may call global
    functions by name (a test double does; the Android bridge replies
    later, see [NativeReply]) and it may throw. *)
Record native_sync : Type := {
  sync_replies : list (string * value * value);
  sync_throw : option value;
}.

Inductive member : Type :=
| MemberFn (f : list value -> native_sync)
| MemberVal (v : value).

(** [registered] and [removed] are history: the callbacks assigned to the
    namespace and the callbacks a [delete] took out of it, oldest first.
    [native_calls] records the calls made into the bridge object. *)
Record world : Type := {
  android : option (gmap string member);
  globals : gmap string callback;
  promises : list settlement;
  console : list log_entry;
  native_calls : list (string * list value);
  registered : list callback;
  removed : list callback;
}.

Definition log (entry : log_entry) (w : world) : world :=
  {| android := android w; globals := globals w; promises := promises w;
     console := console w ++ [entry]; native_calls := native_calls w;
     registered := registered w; removed := removed w |}.

Definition new_promise (s : settlement) (w : world) : world * nat :=
  ({| android := android w; globals := globals w; promises := promises w ++ [s];
      console := console w; native_calls := native_calls w;
      registered := registered w; removed := removed w |},
   length (promises w)).

(** [resolve] and [reject] act on a pending promise only. *)
Definition settle (p : nat) (s : settlement) (w : world) : world :=
  match promises w !! p with
  | Some Pending =>
      {| android := android w; globals := globals w; promises := <[p := s]> (promises w);
         console := console w; native_calls := native_calls w;
         registered := registered w; removed := removed w |}
  | _ => w
  end.

(** [window[name] = cb]. *)
Definition set_global (name : string) (cb : callback) (w : world) : world :=
  {| android := android w; globals := <[name := cb]> (globals w); promises := promises w;
     console := console w; native_calls := native_calls w;
     registered := registered w ++ [cb]; removed := removed w |}.

(** [delete window[name]]; deleting an absent property does nothing. *)
Definition delete_global (name : string) (w : world) : world :=
  match globals w !! name with
  | Some cb =>
      {| android := android w; globals := delete name (globals w); promises := promises w;
         console := console w; native_calls := native_calls w;
         registered := registered w; removed := removed w ++ [cb] |}
  | None => w
  end.

Definition record_native_call (methodName : string) (args : list value) (w : world) : world :=
  {| android := android w; globals := globals w; promises := promises w;
     console := console w; native_calls := native_calls w ++ [(methodName, args)];
     registered := registered w; removed := removed w |}.

Definition settled (w : world) (p : nat) : Prop :=
  exists s, promises w !! p = Some s /\ s <> Pending.

(** How many times a [delete] has taken [cb] out of the namespace. *)
Definition times_removed (cb : callback) (w : world) : nat :=
  count_occ callback_eq_dec (removed w) cb.

Definition not_found_message (methodName : string) : string :=
  "native 브릿지(window.Android) 또는 '" +:+ methodName +:+
  "' 메소드를 찾을 수 없습니다. PC 웹 환경에서는 작동하지 않습니다.".

Definition callback_name (methodName : string) (now : Z) : string :=
  "__native_callback_" +:+ methodName +:+ "_" +:+ pretty now.

(** [window.Android && typeof window.Android[methodName] === 'function'] *)
Definition callable (bridge : option (gmap string member)) (methodName : string)
  : option (list value -> native_sync) :=
  match bridge with
  | Some b => match b !! methodName with
              | Some (MemberFn f) => Some f
              | _ => None
              end
  | None => None
  end.

(** The shape every reachable world has.  A callback found in the
    namespace sits under its own name and its promise is pending; a
    registered callback is either still pending and never removed, or
    settled and removed once. *)
Record consistent (w : world) : Prop := {
  live_ok : forall n cb, globals w !! n = Some cb ->
      cb_name cb = n /\ cb ∈ registered w /\ promises w !! cb_promise cb = Some Pending;
  reg_alloc : forall cb, cb ∈ registered w -> cb_promise cb < length (promises w);
  reg_inj : forall cb cb', cb ∈ registered w -> cb' ∈ registered w ->
      cb_promise cb = cb_promise cb' -> cb = cb';
  rem_reg : forall cb, cb ∈ removed w -> cb ∈ registered w;
  reg_state : forall cb, cb ∈ registered w ->
      (promises w !! cb_promise cb = Some Pending /\ times_removed cb w = 0)
      \/ (settled w (cb_promise cb) /\ times_removed cb w = 1);
}.

(** During one call of [request]: the callback registered by the call is
    still in place, or it has run. *)
Definition in_place_or_done (cb : callback) (w : world) : Prop :=
  globals w !! cb_name cb = Some cb
  \/ (globals w !! cb_name cb = None /\ settled w (cb_promise cb)).

(** Between [w0] and [w], whatever got settled has left the namespace. *)
Definition settled_are_gone (w0 w : world) : Prop :=
  forall cb, cb ∈ registered w -> ~ settled w0 (cb_promise cb) ->
             settled w (cb_promise cb) -> globals w !! cb_name cb = None.

Section Bridge.
Context {json : JSON}.

(** The settlement the callback asks for; it is never [Pending]. *)
Definition verdict (result error : value) : settlement :=
  if to_boolean error then
    match JSON_parse (to_string error) with
    | Normal parsed => Rejected parsed
    | Throw _ => Rejected error
    end
  else Fulfilled result.

(** The body of the one-shot callback (lines 25-40). *)
Definition native_callback (cb : callback) (result error : value) (w : world) : world :=
  let w1 :=
    if to_boolean error then
      let w0 := log (ConsoleError ("네이티브 API 오류 (" +:+ cb_method cb +:+ "):") (Some error)) w in
      match JSON_parse (to_string error) with
      | Normal parsed => settle (cb_promise cb) (Rejected parsed) w0
      | Throw _ => settle (cb_promise cb) (Rejected error) w0
      end
    else settle (cb_promise cb) (Fulfilled result) w in
  delete_global (cb_name cb) w1.

(** The native side evaluating [window[name](result, error)].  When no
    such property exists the failure is the caller's; nothing changes here. *)
Definition invoke_global (name : string) (result error : value) (w : world) : world :=
  match globals w !! name with
  | Some cb => native_callback cb result error w
  | None => w
  end.

Definition invoke_all (replies : list (string * value * value)) (w : world) : world :=
  foldl (fun acc reply => invoke_global reply.1.1 reply.1.2 reply.2 acc) w replies.

(** [typeof arg === 'object' && arg !== null ? JSON.stringify(arg) : arg] *)
Definition final_arg (arg : value) : value :=
  if is_object arg then VStr (JSON_stringify arg) else arg.

(** [apiBridge.request(methodName, ...args)], called at time [now]. *)
Definition request (methodName : string) (args : list value) (now : Z) (w : world)
  : world * nat :=
  match callable (android w) methodName with
  | None =>
      let errorMessage := not_found_message methodName in
      new_promise (Rejected (VError "Error" errorMessage))
                  (log (ConsoleError errorMessage None) w)
  | Some f =>
      let (w1, p) := new_promise Pending w in
      let callbackName := callback_name methodName now in
      let cb := {| cb_method := methodName; cb_name := callbackName; cb_promise := p |} in
      let w2 := set_global callbackName cb w1 in
      let finalArgs := map final_arg args in
      let w3 := record_native_call methodName (finalArgs ++ [VStr callbackName]) w2 in
      let script := f (finalArgs ++ [VStr callbackName]) in
      let w4 := invoke_all (sync_replies script) w3 in
      match sync_throw script with
      | Some e =>
          let w5 := log (ConsoleError ("네이티브 브릿지 호출 중 예외 발생 (" +:+ methodName +:+ "):")
                                      (Some e)) w4 in
          (delete_global callbackName (settle p (Rejected e) w5), p)
      | None => (w4, p)
      end
  end.

(** What happens to a page over time: the client issues requests, the
    native side replies by evaluating a global function call. *)
Inductive event : Type :=
| Request (methodName : string) (args : list value) (now : Z)
| NativeReply (name : string) (result error : value).

Definition step (w : world) (ev : event) : world :=
  match ev with
  | Request methodName args now => (request methodName args now w).1
  | NativeReply name result error => invoke_global name result error w
  end.

Definition run (w : world) (evs : list event) : world := foldl step w evs.

End Bridge.

(** A freshly loaded page: nothing registered, no promise created. *)
Definition fresh (bridge : option (gmap string member)) : world :=
  {| android := bridge; globals := ∅; promises := []; console := [];
     native_calls := []; registered := []; removed := [] |}.

End ApiBridge.

(* ===================================================================== *)
(** ** api/game-api.js: one request router over two transports *)
(* ===================================================================== *)

Module GameAPI.

(** The fields of the [GameAPI] instance. *)
Record t : Type := {
  useBridge : bool;
  baseURL : string;
  playerId : string;
}.

(** The four arguments every operation hands to [this.request]. *)
Record api_request : Type := {
  bridgeMethod : string;
  bridgeArgs : list value;
  fetchUrl : string;
  fetchOptions : list (string * value);
}.

Record response : Type := {
  status : Z;
  body : string;
}.

(** [Response.ok]: the status is in the range 200-299. *)
Definition ok (r : response) : bool := (200 <=? status r)%Z && (status r <=? 299)%Z.

(** What [await fetch(url, options)] gives: a rejection (the request never
    got an answer) or a response, whose body is taken to be readable. *)
Inductive fetch_result : Type :=
| NetworkError (e : value)
| Responded (r : response).

(** What [request] does: it returns the promise of [apiBridge.request]
    called with the method name and the arguments, or it calls [fetch] and
    goes on with [k] once that has settled; [k] gives the settlement of the
    promise of [request] and what was logged. *)
Inductive routed : Type :=
| ViaBridge (methodName : string) (args : list value)
| ViaFetch (url : string) (options : list (string * value))
           (k : fetch_result -> outcome * list log_entry).

(** *** Object literals with a spread *)

Fixpoint has_key (key : string) (fields : list (string * value)) : bool :=
  match fields with
  | [] => false
  | (k, _) :: rest => String.eqb k key || has_key key rest
  end.

Fixpoint set_key (key : string) (v : value) (fields : list (string * value))
  : list (string * value) :=
  match fields with
  | [] => [(key, v)]
  | (k, old) :: rest =>
      if String.eqb k key then (k, v) :: rest else (k, old) :: set_key key v rest
  end.

(** [{ ...base, ...extra }] *)
Definition spread (base extra : list (string * value)) : list (string * value) :=
  foldl (fun acc kv => set_key kv.1 kv.2 acc) base extra.

(** *** [URLSearchParams]: the form-urlencoded serialisation of a byte string *)

Definition form_safe (a : ascii) : bool :=
  let n := nat_of_ascii a in
  ((48 <=? n)%nat && (n <=? 57)%nat) || ((65 <=? n)%nat && (n <=? 90)%nat)
  || ((97 <=? n)%nat && (n <=? 122)%nat)
  || (n =? 42)%nat || (n =? 45)%nat || (n =? 46)%nat || (n =? 95)%nat.

Definition hex_digit (n : nat) : ascii :=
  ascii_of_nat (if (n <? 10)%nat then 48 + n else 55 + n).

Fixpoint form_urlencode (s : string) : string :=
  match s with
  | EmptyString => EmptyString
  | String a rest =>
      let n := nat_of_ascii a in
      if form_safe a then String a (form_urlencode rest)
      else if (n =? 32)%nat then String "+" (form_urlencode rest)
      else String "%" (String (hex_digit (n / 16)) (String (hex_digit (n mod 16))
                                                            (form_urlencode rest)))
  end.

(** [`${new URLSearchParams({ k1: v1, ... })}`] *)
Definition search_params (params : list (string * value)) : string :=
  join "&" (map (fun kv => form_urlencode kv.1 +:+ "=" +:+ form_urlencode (to_string kv.2)) params).

(** *** The player identifier *)

(** [generatePlayerId()], with the clock reading and the random suffix the
    host would give.  [!playerId] also holds for a stored empty string. *)
Definition generatePlayerId (now : Z) (suffix : string) (localStorage : gmap string string)
  : string * gmap string string :=
  match localStorage !! "playerId" with
  | Some stored =>
      if String.eqb stored "" then
        let fresh_id := "player_" +:+ pretty now +:+ "_" +:+ suffix in
        (fresh_id, <["playerId" := fresh_id]> localStorage)
      else (stored, localStorage)
  | None =>
      let fresh_id := "player_" +:+ pretty now +:+ "_" +:+ suffix in
      (fresh_id, <["playerId" := fresh_id]> localStorage)
  end.

(** [new GameAPI()]: [bridge_present] is [typeof window.Android !== 'undefined']. *)
Definition constructor (bridge_present : bool) (now : Z) (suffix : string)
    (localStorage : gmap string string) : t * gmap string string :=
  let '(id, storage) := generatePlayerId now suffix localStorage in
  ({| useBridge := bridge_present; baseURL := "http://localhost:8080/api"; playerId := id |},
   storage).

Definition getPlayerId (api : t) : string := playerId api.

Definition resetPlayerId (now : Z) (suffix : string) (api : t) (localStorage : gmap string string)
  : t * gmap string string :=
  let '(id, storage) := generatePlayerId now suffix (delete "playerId" localStorage) in
  ({| useBridge := useBridge api; baseURL := baseURL api; playerId := id |}, storage).

(** *** The operations: one call into the router each *)

Definition getPlayerPuzzles (api : t) : api_request :=
  {| bridgeMethod := "getPlayerPuzzles"; bridgeArgs := [VStr (playerId api)];
     fetchUrl := "/puzzle/player/" +:+ playerId api; fetchOptions := [] |}.

Definition submitPuzzleAnswer (api : t) (puzzleId answer : value) : api_request :=
  let body := VObj [("playerId", VStr (playerId api)); ("puzzleId", puzzleId); ("answer", answer)] in
  {| bridgeMethod := "submitPuzzleAnswer"; bridgeArgs := [body];
     fetchUrl := "/puzzle/submit"; fetchOptions := [("method", VStr "POST"); ("body", body)] |}.

Definition completePuzzle (api : t) (puzzleId : value) : api_request :=
  let params := search_params [("playerId", VStr (playerId api)); ("puzzleId", puzzleId)] in
  {| bridgeMethod := "completePuzzle"; bridgeArgs := [VStr (playerId api); puzzleId];
     fetchUrl := "/game/complete-puzzle?" +:+ params; fetchOptions := [("method", VStr "POST")] |}.

Definition resetProgress (api : t) : api_request :=
  {| bridgeMethod := "resetProgress"; bridgeArgs := [VStr (playerId api)];
     fetchUrl := "/game/reset/" +:+ playerId api; fetchOptions := [("method", VStr "POST")] |}.

Definition unlockAll (api : t) : api_request :=
  {| bridgeMethod := "unlockAll"; bridgeArgs := [VStr (playerId api)];
     fetchUrl := "/game/unlock-all/" +:+ playerId api; fetchOptions := [("method", VStr "POST")] |}.

Definition getGameInfo (api : t) : api_request :=
  {| bridgeMethod := "getGameInfo"; bridgeArgs := [];
     fetchUrl := "/game/info"; fetchOptions := [] |}.

Section Router.
Context {json : JSON}.

Definition http_error_message (r : response) : string :=
  "HTTP error! status: " +:+ pretty (status r) +:+ ", message: " +:+ body r.

(** Lines 52-62: from the settlement of [fetch] to the settlement of
    [request].  Every failure passes through the [catch], which logs it and
    throws it again. *)
Definition http_settle (result : fetch_result) : outcome * list log_entry :=
  match result with
  | NetworkError error => (Failed error, [ConsoleError "API 요청 실패:" (Some error)])
  | Responded r =>
      if negb (ok r) then
        let error := VError "Error" (http_error_message r) in
        (Failed error, [ConsoleError "API 요청 실패:" (Some error)])
      else
        match JSON_parse (body r) with
        | Normal parsed => (Resolved parsed, [])
        | Throw error => (Failed error, [ConsoleError "API 요청 실패:" (Some error)])
        end
  end.

(** [request(bridgeMethod, bridgeArgs, fetchUrl, fetchOptions)] *)
Definition request (api : t) (req : api_request) : routed :=
  if useBridge api then ViaBridge (bridgeMethod req) (bridgeArgs req)
  else
    let url := baseURL api +:+ fetchUrl req in
    let options :=
      spread [("headers", VObj [("Content-Type", VStr "application/json")])]
             (fetchOptions req) in
    let options :=
      if to_boolean (assoc "body" options)
      then set_key "body" (VStr (JSON_stringify (assoc "body" options))) options
      else options in
    ViaFetch url options http_settle.

(** On the bridge path the caller sees the promise of [apiBridge.request]. *)
Definition bridge_settle (s : ApiBridge.settlement) : option outcome :=
  match s with
  | ApiBridge.Pending => None
  | ApiBridge.Fulfilled v => Some (Resolved v)
  | ApiBridge.Rejected e => Some (Failed e)
  end.

End Router.

End GameAPI.

(* ===================================================================== *)
(** ** api/puzzle-manager-api.js: puzzle snapshot and puzzle session *)
(* ===================================================================== *)

Module PuzzleManager.

(** What [submitBtn.onclick] can hold. *)
Inductive handler : Type :=
| NoHandler
| CloseHandler                      (* () => this.hide() *)
| ContinueHandler (nextScene : value).
                                    (* () => { this.hide(); if (response.nextScene) ... } *)

(** The properties of the page elements that the manager reads or writes. *)
Record ui : Type := {
  modal_shown : bool;               (* puzzleModal.classList has 'show' *)
  modalTitle : string;              (* modalTitle.textContent *)
  puzzleContent : string;           (* puzzleContent.innerHTML as last assigned *)
  feedback : option (string * string);
                                    (* text and colour of the appended feedback line *)
  input_display : string;           (* puzzleInput.style.display *)
  input_value : string;             (* puzzleInput.value *)
  submit_display : string;          (* submitBtn.style.display *)
  submit_text : string;             (* submitBtn.textContent *)
  submit_onclick : handler;         (* submitBtn.onclick *)
}.

(** Everything the manager's methods can see and change. *)
Record heap : Type := {
  gameAPI : GameAPI.t;
  currentPuzzleId : value;
  playerPuzzles : value;
  view : ui;
  localStorage : gmap string string;
  console : list log_entry;
}.

Definition with_view (f : ui -> ui) (h : heap) : heap :=
  {| gameAPI := gameAPI h; currentPuzzleId := currentPuzzleId h;
     playerPuzzles := playerPuzzles h; view := f (view h);
     localStorage := localStorage h; console := console h |}.

Definition with_storage (f : gmap string string -> gmap string string) (h : heap) : heap :=
  {| gameAPI := gameAPI h; currentPuzzleId := currentPuzzleId h;
     playerPuzzles := playerPuzzles h; view := view h;
     localStorage := f (localStorage h); console := console h |}.

Definition set_playerPuzzles (puzzles : value) (h : heap) : heap :=
  {| gameAPI := gameAPI h; currentPuzzleId := currentPuzzleId h;
     playerPuzzles := puzzles; view := view h;
     localStorage := localStorage h; console := console h |}.

Definition set_currentPuzzleId (id : value) (h : heap) : heap :=
  {| gameAPI := gameAPI h; currentPuzzleId := id;
     playerPuzzles := playerPuzzles h; view := view h;
     localStorage := localStorage h; console := console h |}.

Definition log (entry : log_entry) (h : heap) : heap :=
  {| gameAPI := gameAPI h; currentPuzzleId := currentPuzzleId h;
     playerPuzzles := playerPuzzles h; view := view h;
     localStorage := localStorage h; console := console h ++ [entry] |}.

(** *** Asynchronous functions *)

(** An [async] function that is running: finished with a heap, or suspended
    at an [await] of a game operation.  The continuation takes the outcome
    of the operation and the heap as it is when the function resumes. *)
Inductive task : Type :=
| Done (h : heap)
| Await (call : GameAPI.api_request) (h : heap) (k : outcome -> heap -> task).

(** [await t; rest]: awaiting another [async] function of the manager. *)
Fixpoint and_then (t : task) (rest : heap -> task) : task :=
  match t with
  | Done h => rest h
  | Await call h k => Await call h (fun o h' => and_then (k o h') rest)
  end.

(** One turn of the event loop as seen by a suspended function: the outcome
    of the awaited operation, and what other handlers did to the heap in
    the meantime. *)
Definition turn : Type := outcome * (heap -> heap).

(** Runs a task against the turns of the event loop.  The result lists each
    operation awaited, with the heap at the suspension, and the final heap
    when the function ran to its end ([None]: it is still waiting). *)
Fixpoint run (t : task) (turns : list turn)
  : list (GameAPI.api_request * heap) * option heap :=
  match t with
  | Done h => ([], Some h)
  | Await call h k =>
      match turns with
      | [] => ([(call, h)], None)
      | (o, meanwhile) :: later =>
          let '(calls, final) := run (k o (meanwhile h)) later in
          ((call, h) :: calls, final)
      end
  end.

Definition calls (t : task) (turns : list turn) : list GameAPI.api_request :=
  map fst (run t turns).1.

Definition quiet (o : outcome) : turn := (o, fun h => h).

(** *** Views *)

Definition paragraph (text : string) : string := "<p>" +:+ text +:+ "</p>".

Definition hide (h : heap) : heap :=
  set_currentPuzzleId VNull
    (with_view (fun v =>
       {| modal_shown := false; modalTitle := modalTitle v; puzzleContent := puzzleContent v;
          feedback := feedback v; input_display := input_display v;
          input_value := input_value v; submit_display := submit_display v;
          submit_text := submit_text v; submit_onclick := submit_onclick v |}) h).

(** The three message views share their shape. *)
Definition message_view (title content : string) (v : ui) : ui :=
  {| modal_shown := true; modalTitle := title; puzzleContent := content;
     feedback := None; input_display := "none"; input_value := input_value v;
     submit_display := submit_display v; submit_text := "닫기";
     submit_onclick := CloseHandler |}.

Definition showError (message : string) (h : heap) : heap :=
  with_view (message_view "오류" (paragraph message)) h.

Definition showLockedMessage (message : string) (h : heap) : heap :=
  with_view (message_view "잠김" (paragraph message)) h.

Definition showCompletedMessage (title : string) (h : heap) : heap :=
  with_view (message_view title (paragraph "이미 해결한 퍼즐입니다.")) h.

Definition showFeedback (message : string) (isSuccess : bool) (h : heap) : heap :=
  with_view (fun v =>
    {| modal_shown := modal_shown v; modalTitle := modalTitle v;
       puzzleContent := puzzleContent v;
       feedback := Some (if isSuccess then ("✅ " +:+ message, "#00ff00")
                         else ("❌ " +:+ message, "#ff6b6b"));
       input_display := input_display v; input_value := "";
       submit_display := submit_display v; submit_text := submit_text v;
       submit_onclick := submit_onclick v |}) h.

(** The first three statements of the success branch of [checkAnswer]. *)
Definition success_view (message : string) (v : ui) : ui :=
  {| modal_shown := modal_shown v; modalTitle := modalTitle v;
     puzzleContent := "<p style=" +:+ quote_mark +:+ "color: #00ff00;" +:+ quote_mark +:+ ">✅ "
                      +:+ message +:+ "</p>";
     feedback := None; input_display := "none"; input_value := input_value v;
     submit_display := submit_display v; submit_text := "다음";
     submit_onclick := submit_onclick v |}.

Definition set_onclick (f : handler) (v : ui) : ui :=
  {| modal_shown := modal_shown v; modalTitle := modalTitle v;
     puzzleContent := puzzleContent v; feedback := feedback v;
     input_display := input_display v; input_value := input_value v;
     submit_display := submit_display v; submit_text := submit_text v;
     submit_onclick := f |}.

(** The error view: what [showError] leaves on the page. *)
Definition error_view (v : ui) : Prop :=
  modal_shown v = true /\ modalTitle v = "오류" /\ submit_onclick v = CloseHandler.

(** The session has no current puzzle. *)
Definition idle (h : heap) : Prop := currentPuzzleId h = VNull.

Section Manager.
Context {json : JSON} {strings : Strings}.

(** [loadPlayerPuzzles()] *)
Definition loadPlayerPuzzles (h : heap) : task :=
  Await (GameAPI.getPlayerPuzzles (gameAPI h)) h (fun o h1 =>
    match o with
    | Resolved puzzles =>
        let h2 := log (ConsoleLog "서버로부터 퍼즐 데이터 로드 완료:" (Some puzzles))
                      (set_playerPuzzles puzzles h1) in
        let dataToSave :=
          VObj [("playerId", VStr (GameAPI.getPlayerId (gameAPI h2)));
                ("puzzles", playerPuzzles h2)] in
        let h3 := with_storage (insert "playerPuzzles" (JSON_stringify dataToSave)) h2 in
        Done (log (ConsoleLog "최신 진행 상황을 localStorage에 저장했습니다." None) h3)
    | Failed error =>
        Done (showError "퍼즐 데이터를 불러오는데 실패했습니다."
                (log (ConsoleError "퍼즐 데이터 로드 실패:" (Some error)) h1))
    end).

(** The [try] block of [initializePuzzles]: the heap it leaves and whether
    the server is still to be asked; [Throw] when [JSON.parse] or the
    property read on its result throws. *)
Definition restore (savedDataJSON : string) (h : heap) : completion (heap * bool) :=
  match JSON_parse savedDataJSON with
  | Throw e => Throw e
  | Normal savedData =>
      match get "playerId" savedData with
      | Throw e => Throw e
      | Normal owner =>
          if strict_eq_string owner (GameAPI.getPlayerId (gameAPI h)) then
            match get "puzzles" savedData with
            | Throw e => Throw e
            | Normal puzzles =>
                if is_array puzzles then
                  Normal (log (ConsoleLog "localStorage에서 진행 상황을 복원했습니다." None)
                              (set_playerPuzzles puzzles h), false)
                else Normal (h, true)
            end
          else Normal (h, true)
      end
  end.

(** [initializePuzzles()] *)
Definition initializePuzzles (h : heap) : task :=
  let '(h1, shouldFetchFromServer) :=
    match localStorage h !! "playerPuzzles" with
    | None => (h, true)
    | Some savedDataJSON =>
        if String.eqb savedDataJSON "" then (h, true)
        else
          match restore savedDataJSON h with
          | Normal r => r
          | Throw e =>
              (with_storage (delete "playerPuzzles")
                 (log (ConsoleError "localStorage 데이터 파싱 실패:" (Some e)) h), true)
          end
    end in
  if shouldFetchFromServer then
    loadPlayerPuzzles (log (ConsoleLog "서버에서 최신 퍼즐 데이터를 가져옵니다." None) h1)
  else Done h1.

(** [new PuzzleManagerAPI()] on a page whose elements show [page]. *)
Definition constructor (api : GameAPI.t) (page : ui) (storage : gmap string string)
    (log0 : list log_entry) : task :=
  initializePuzzles
    {| gameAPI := api; currentPuzzleId := VNull; playerPuzzles := VArr [];
       view := page; localStorage := storage; console := log0 |}.

(** [completePuzzle(puzzleId)] *)
Definition completePuzzle (puzzleId : value) (h : heap) : task :=
  Await (GameAPI.completePuzzle (gameAPI h) puzzleId) h (fun o h1 =>
    match o with
    | Resolved _ =>
        and_then (loadPlayerPuzzles h1) (fun h2 =>
          Done (log (ConsoleLog ("퍼즐 " +:+ to_string puzzleId +:+ " 완료 처리 및 상태 저장됨") None)
                    h2))
    | Failed error =>
        Done (log (ConsoleError "퍼즐 완료 처리 실패:" (Some error)) h1)
    end).

(** The [catch] block of [checkAnswer]. *)
Definition checkAnswer_failed (error : value) (h : heap) : heap :=
  showError "정답 확인 중 오류가 발생했습니다."
    (log (ConsoleError "정답 확인 실패:" (Some error)) h).

(** [checkAnswer()] *)
Definition checkAnswer (h : heap) : task :=
  if negb (to_boolean (currentPuzzleId h)) then Done h
  else
    let userAnswer := trim (toLowerCase (input_value (view h))) in
    Await (GameAPI.submitPuzzleAnswer (gameAPI h) (currentPuzzleId h) (VStr userAnswer)) h
      (fun o h1 =>
         match o with
         | Failed error => Done (checkAnswer_failed error h1)
         | Resolved response =>
             match get "success" response with
             | Throw e => Done (checkAnswer_failed e h1)
             | Normal success =>
                 if to_boolean success then
                   let h2 := with_view (success_view (to_string (prop "message" response))) h1 in
                   and_then (completePuzzle (currentPuzzleId h2) h2) (fun h3 =>
                     Done (with_view
                             (set_onclick (ContinueHandler (prop "nextScene" response))) h3))
                 else
                   let message := prop "message" response in
                   Done (showFeedback
                           (to_string (if to_boolean message then message
                                       else VStr "정답이 아닙니다."))
                           false h1)
             end
         end).

End Manager.

End PuzzleManager.

(* ===================================================================== *)
(** ** MiniJSON: an executable instance of the JSON builtins *)
(* ===================================================================== *)

(** A printer and a recursive-descent parser for the JSON texts whose
    numbers are integers and whose strings use the two-character escapes
    only.  It instantiates [JS.JSON] so that the model runs on concrete
    inputs; no statement about the client depends on it. *)
Module MiniJSON.

Definition char_is (code : nat) (a : ascii) : bool := (nat_of_ascii a =? code)%nat.

Definition backslash : string := String (ascii_of_nat 92) EmptyString.

Fixpoint escape (s : string) : string :=
  match s with
  | EmptyString => EmptyString
  | String a rest =>
      if char_is 34 a then backslash +:+ quote_mark +:+ escape rest
      else if char_is 92 a then backslash +:+ backslash +:+ escape rest
      else if char_is 10 a then backslash +:+ "n" +:+ escape rest
      else if char_is 13 a then backslash +:+ "r" +:+ escape rest
      else if char_is 9 a then backslash +:+ "t" +:+ escape rest
      else String a (escape rest)
  end.

Definition quoted (s : string) : string := quote_mark +:+ escape s +:+ quote_mark.

(** [JSON.stringify]: inside an array [undefined] prints as [null], inside
    an object a property holding [undefined] is left out. *)
Fixpoint stringify (v : value) : string :=
  match v with
  | VUndefined => "undefined"
  | VNull | VNaN => "null"
  | VBool true => "true"
  | VBool false => "false"
  | VNum n => pretty n
  | VStr s => quoted s
  | VArr items =>
      "[" +:+ join "," ((fix each (l : list value) : list string :=
                           match l with
                           | [] => []
                           | VUndefined :: l' => "null" :: each l'
                           | x :: l' => stringify x :: each l'
                           end) items) +:+ "]"
  | VObj fields =>
      "{" +:+ join "," ((fix each (l : list (string * value)) : list string :=
                           match l with
                           | [] => []
                           | (_, VUndefined) :: l' => each l'
                           | (k, x) :: l' => (quoted k +:+ ":" +:+ stringify x) :: each l'
                           end) fields) +:+ "}"
  | VError _ _ => "{}"
  end.

Fixpoint skip_ws (s : string) : string :=
  match s with
  | String a rest =>
      if char_is 32 a || char_is 9 a || char_is 10 a || char_is 13 a then skip_ws rest else s
  | EmptyString => EmptyString
  end.

Definition is_digit (a : ascii) : bool :=
  let n := nat_of_ascii a in (48 <=? n)%nat && (n <=? 57)%nat.

Fixpoint parse_digits (s : string) (acc : Z) : Z * string :=
  match s with
  | String a rest =>
      if is_digit a then parse_digits rest (10 * acc + Z.of_nat (nat_of_ascii a - 48))%Z
      else (acc, s)
  | EmptyString => (acc, s)
  end.

(** The characters of a string literal after its opening quote. *)
Fixpoint parse_chars (s : string) : option (string * string) :=
  match s with
  | EmptyString => None
  | String a rest =>
      if char_is 34 a then Some (EmptyString, rest)
      else if char_is 92 a then
        match rest with
        | String b rest' =>
            let plain :=
              if char_is 110 b then Some (ascii_of_nat 10)
              else if char_is 114 b then Some (ascii_of_nat 13)
              else if char_is 116 b then Some (ascii_of_nat 9)
              else if char_is 34 b || char_is 92 b || char_is 47 b then Some b
              else None in
            match plain, parse_chars rest' with
            | Some c, Some (text, after) => Some (String c text, after)
            | _, _ => None
            end
        | EmptyString => None
        end
      else
        match parse_chars rest with
        | Some (text, after) => Some (String a text, after)
        | None => None
        end
  end.

Definition expect (word : string) (v : value) (s : string) : option (value * string) :=
  if String.prefix word s
  then Some (v, String.substring (String.length word) (String.length s - String.length word) s)
  else None.

(** [elem (, elem)* ]] after an opening bracket. *)
Fixpoint parse_items (fuel : nat) (elem : string -> option (value * string))
    (s : string) (acc : list value) : option (list value * string) :=
  match fuel with
  | O => None
  | S fuel' =>
      match elem s with
      | None => None
      | Some (v, rest) =>
          match skip_ws rest with
          | String a rest' =>
              if char_is 44 a then parse_items fuel' elem rest' (v :: acc)
              else if char_is 93 a then Some (rev (v :: acc), rest')
              else None
          | EmptyString => None
          end
      end
  end.

(** [string : elem (, string : elem)* }] after an opening brace. *)
Fixpoint parse_members (fuel : nat) (elem : string -> option (value * string))
    (s : string) (acc : list (string * value)) : option (list (string * value) * string) :=
  match fuel with
  | O => None
  | S fuel' =>
      match skip_ws s with
      | String q after_quote =>
          if char_is 34 q then
            match parse_chars after_quote with
            | Some (key, rest) =>
                match skip_ws rest with
                | String c rest' =>
                    if char_is 58 c then
                      match elem rest' with
                      | Some (v, rest'') =>
                          match skip_ws rest'' with
                          | String a tail =>
                              if char_is 44 a
                              then parse_members fuel' elem tail ((key, v) :: acc)
                              else if char_is 125 a then Some (rev ((key, v) :: acc), tail)
                              else None
                          | EmptyString => None
                          end
                      | None => None
                      end
                    else None
                | EmptyString => None
                end
            | None => None
            end
          else None
      | EmptyString => None
      end
  end.

Fixpoint parse_value (fuel : nat) (s : string) : option (value * string) :=
  match fuel with
  | O => None
  | S fuel' =>
      match skip_ws s with
      | EmptyString => None
      | String a rest =>
          if char_is 34 a then
            match parse_chars rest with
            | Some (text, after) => Some (VStr text, after)
            | None => None
            end
          else if char_is 91 a then
            match skip_ws rest with
            | String b rest' =>
                if char_is 93 b then Some (VArr [], rest')
                else match parse_items fuel' (parse_value fuel') rest [] with
                     | Some (items, after) => Some (VArr items, after)
                     | None => None
                     end
            | EmptyString => None
            end
          else if char_is 123 a then
            match skip_ws rest with
            | String b rest' =>
                if char_is 125 b then Some (VObj [], rest')
                else match parse_members fuel' (parse_value fuel') rest [] with
                     | Some (fields, after) => Some (VObj fields, after)
                     | None => None
                     end
            | EmptyString => None
            end
          else if char_is 45 a then
            match rest with
            | String d _ =>
                if is_digit d then
                  let '(n, after) := parse_digits rest 0 in Some (VNum (- n), after)
                else None
            | EmptyString => None
            end
          else if is_digit a then
            let '(n, after) := parse_digits (String a rest) 0 in Some (VNum n, after)
          else if char_is 110 a then expect "null" VNull (String a rest)
          else if char_is 116 a then expect "true" (VBool true) (String a rest)
          else if char_is 102 a then expect "false" (VBool false) (String a rest)
          else None
      end
  end.

Definition parse (s : string) : completion value :=
  match parse_value (S (String.length s)) s with
  | Some (v, rest) =>
      match skip_ws rest with
      | EmptyString => Normal v
      | _ => Throw (VError "SyntaxError" "Unexpected non-whitespace character after JSON")
      end
  | None => Throw (VError "SyntaxError" "Unexpected token in JSON")
  end.

#[global] Instance json : JSON := {| JSON_parse := parse; JSON_stringify := stringify |}.

End MiniJSON.

(* ===================================================================== *)
(** ** A concrete page to run the model on *)
(* ===================================================================== *)

Module Demo.
Import ApiBridge PuzzleManager.

(** A bridge method of the Android kind: it returns at once and replies
    later. *)
Definition replies_later : native_sync := {| sync_replies := []; sync_throw := None |}.

Definition demo_bridge : gmap string member :=
  {[ "getGameInfo" := MemberFn (fun _ => replies_later);
     "submitPuzzleAnswer" := MemberFn (fun _ => replies_later);
     "crash" := MemberFn (fun _ => {| sync_replies := [];
                                      sync_throw := Some (VError "Error" "bridge down") |});
     "version" := MemberVal (VStr "1.0") ]}.

Definition demo_token : string := "__native_callback_getGameInfo_1700000000000".

Definition demo_callback : callback :=
  {| cb_method := "getGameInfo"; cb_name := demo_token; cb_promise := 0 |}.

Definition web_api : GameAPI.t :=
  {| GameAPI.useBridge := false; GameAPI.baseURL := "http://localhost:8080/api";
     GameAPI.playerId := "player_1_abc" |}.

Definition demo_api : GameAPI.t :=
  {| GameAPI.useBridge := true; GameAPI.baseURL := "http://localhost:8080/api";
     GameAPI.playerId := "player_1_abc" |}.

Definition other_api : GameAPI.t :=
  {| GameAPI.useBridge := true; GameAPI.baseURL := "http://localhost:8080/api";
     GameAPI.playerId := "player_2_xyz" |}.

Definition demo_puzzles : list value :=
  [VObj [("id", VStr "chair-puzzle"); ("title", VStr "chair"); ("type", VStr "text");
         ("isLocked", VBool false); ("isCompleted", VBool false)];
   VObj [("id", VStr "mirror-puzzle"); ("title", VStr "mirror"); ("type", VStr "info");
         ("isLocked", VBool true); ("isCompleted", VBool false)]].

Definition demo_snapshot : value :=
  VObj [("playerId", VStr "player_1_abc"); ("puzzles", VArr demo_puzzles)].

Definition demo_storage : gmap string string :=
  {[ "playerPuzzles" := MiniJSON.stringify demo_snapshot ]}.

Definition demo_page : ui :=
  {| modal_shown := true; modalTitle := "chair"; puzzleContent := paragraph "What sits still?";
     feedback := None; input_display := "block"; input_value := "  CAT ";
     submit_display := "block"; submit_text := "제출"; submit_onclick := NoHandler |}.

Definition demo_heap : heap :=
  {| gameAPI := demo_api; currentPuzzleId := VStr "chair-puzzle";
     playerPuzzles := VArr demo_puzzles; view := demo_page;
     localStorage := demo_storage; console := [] |}.

Definition correct : value := VObj [("success", VBool true); ("message", VStr "Correct!")].

Definition boom : value := VError "Error" "HTTP error! status: 500, message: boom".

End Demo.

(* ===================================================================== *)
(** ** api/puzzle-manager-api.js, continued: opening a puzzle *)
(* ===================================================================== *)

Module PuzzleSession.
Import PuzzleManager.

(** [a === b].  Two object values are never the same object here: the one
    comes out of a parsed puzzle list, the other is an argument of [show]. *)
Definition strict_eq (a b : value) : bool :=
  match a, b with
  | VUndefined, VUndefined | VNull, VNull => true
  | VBool x, VBool y => Bool.eqb x y
  | VNum x, VNum y => (x =? y)%Z
  | VStr x, VStr y => String.eqb x y
  | _, _ => false
  end.

(** [v.length === 0].  Reading [length] of [null] or [undefined] throws. *)
Definition length_is_zero (v : value) : completion bool :=
  match v with
  | VUndefined | VNull =>
      Throw (type_error ("Cannot read properties of " +:+ to_string v))
  | VArr items => Normal (match items with [] => true | _ => false end)
  | VStr s => Normal (String.eqb s "")
  | VObj fields => Normal (strict_eq (assoc "length" fields) (VNum 0))
  | _ => Normal false
  end.

(** The loop of [items.find(p => p.id === puzzleId)]: the first element
    whose [id] is the one asked for, [undefined] when there is none; an
    element that is [null] or [undefined] makes the callback throw. *)
Fixpoint find_by_id (puzzleId : value) (items : list value) : completion value :=
  match items with
  | [] => Normal VUndefined
  | p :: rest =>
      match get "id" p with
      | Throw e => Throw e
      | Normal id => if strict_eq id puzzleId then Normal p else find_by_id puzzleId rest
      end
  end.

(** [puzzles.find(...)]: only an array has a [find] that can be called. *)
Definition find (puzzleId : value) (puzzles : value) : completion value :=
  match puzzles with
  | VArr items => find_by_id puzzleId items
  | VUndefined | VNull =>
      Throw (type_error ("Cannot read properties of " +:+ to_string puzzles))
  | _ => Throw (type_error "this.playerPuzzles.find is not a function")
  end.

(** [s.startsWith(prefix)] on a value: a call on anything but a string
    throws. *)
Definition startsWith (prefix : string) (v : value) : completion bool :=
  match v with
  | VStr s => Normal (String.prefix prefix s)
  | VUndefined | VNull =>
      Throw (type_error ("Cannot read properties of " +:+ to_string v))
  | _ => Throw (type_error "puzzle.type.startsWith is not a function")
  end.

(** What assigning [v] to [textContent] stores: [null] and [undefined]
    give the empty text. *)
Definition text_content (v : value) : string :=
  match v with
  | VUndefined | VNull => ""
  | _ => to_string v
  end.

(** The values [getInitCallback] can return besides [undefined]: one of the
    three methods bound to the manager, or what the lookup in the object
    literal inherits from [Object.prototype]. *)
Inductive initializer : Type :=
| InitChair
| InitCabinet
| InitMirror
| Inherited (name : string).

Definition object_prototype_keys : list string :=
  ["constructor"; "hasOwnProperty"; "isPrototypeOf"; "propertyIsEnumerable";
   "toLocaleString"; "toString"; "valueOf"; "__proto__";
   "__defineGetter__"; "__defineSetter__"; "__lookupGetter__"; "__lookupSetter__"].

(** [getInitCallback(puzzleId)] *)
Definition getInitCallback (puzzleId : value) : option initializer :=
  let key := to_string puzzleId in
  if String.eqb key "chair-puzzle" then Some InitChair
  else if String.eqb key "cabinet-puzzle" then Some InitCabinet
  else if String.eqb key "mirror-puzzle" then Some InitMirror
  else if existsb (String.eqb key) object_prototype_keys then Some (Inherited key)
  else None.

(** The initializer when the timer fires; an inherited member does nothing
    to the page. *)
Definition run_initializer (init : initializer) (h : heap) : heap :=
  match init with
  | InitChair => log (ConsoleLog "의자 퍼즐 초기화..." None) h
  | InitCabinet => log (ConsoleLog "캐비닛 퍼즐 초기화..." None) h
  | InitMirror => log (ConsoleLog "거울 퍼즐 초기화..." None) h
  | Inherited _ => h
  end.

(** [handleNextScene(sceneType)] *)
Definition handleNextScene (sceneType : value) (h : heap) : heap :=
  log (ConsoleLog ("다음 장면 처리: " +:+ to_string sceneType) None) h.

(** The call [loadHtmlPuzzle(url, selector, callback)] that [show] makes
    and does not wait for. *)
Record html_load : Type := {
  hl_url : value;
  hl_selector : value;
  hl_callback : option initializer;
}.

(** The interactive views of [show]: the header of the modal, then one of
    the three bodies by the type of the puzzle. *)
Definition open_view (title : string) (content : option string) (controls : string)
    (clear_input : bool) (v : ui) : ui :=
  {| modal_shown := true; modalTitle := title;
     puzzleContent := match content with Some c => c | None => puzzleContent v end;
     feedback := match content with Some _ => None | None => feedback v end;
     input_display := controls;
     input_value := if clear_input then "" else input_value v;
     submit_display := controls; submit_text := submit_text v;
     submit_onclick := submit_onclick v |}.

(** The [catch] block of [show]. *)
Definition show_failed (error : value) (h : heap) : heap :=
  showError "퍼즐을 불러오는데 실패했습니다."
    (log (ConsoleError "퍼즐 표시 실패:" (Some error)) h).

(** [show] from the lookup on (lines 79-118), with the [catch]: the heap it
    leaves and the HTML load it has started, if any. *)
Definition show_found (puzzleId : value) (h : heap) : heap * option html_load :=
  match find puzzleId (playerPuzzles h) with
  | Throw e => (show_failed e h, None)
  | Normal puzzle =>
      if negb (to_boolean puzzle) then (showError "퍼즐을 찾을 수 없습니다." h, None)
      else if to_boolean (prop "isLocked" puzzle) then
        let message := prop "lockedMessage" puzzle in
        (showLockedMessage
           (to_string (if to_boolean message then message else VStr "아직은 열 수 없습니다.")) h,
         None)
      else if to_boolean (prop "isCompleted" puzzle) then
        (showCompletedMessage (text_content (prop "title" puzzle)) h, None)
      else
        let h1 := set_currentPuzzleId puzzleId h in
        let title := text_content (prop "title" puzzle) in
        let question := paragraph (to_string (prop "question" puzzle)) in
        if strict_eq (prop "type" puzzle) (VStr "info") then
          (with_view (open_view title (Some question) "none" false) h1, None)
        else
          match startsWith "html-" (prop "type" puzzle) with
          | Throw e =>
              (show_failed e
                 (with_view (fun v =>
                    {| modal_shown := modal_shown v; modalTitle := title;
                       puzzleContent := puzzleContent v; feedback := feedback v;
                       input_display := input_display v; input_value := input_value v;
                       submit_display := submit_display v; submit_text := submit_text v;
                       submit_onclick := submit_onclick v |}) h1), None)
          | Normal true =>
              (with_view (open_view title None "none" false) h1,
               Some {| hl_url := prop "path" puzzle; hl_selector := prop "selector" puzzle;
                       hl_callback := getInitCallback (prop "id" puzzle) |})
          | Normal false =>
              (with_view (open_view title (Some question) "block" true) h1, None)
          end
  end.

(** What the DOM gives [loadHtmlPuzzle]: parsing the text and selecting in
    the document, as the serialised element, [None] when nothing matches;
    a selector that is no selector makes [querySelector] throw. *)
Class DOM : Type := {
  querySelector : string -> string -> completion (option string);
}.

Section Session.
Context {json : JSON} {dom : DOM}.

(** [show(puzzleId)] *)
Definition show (puzzleId : value) (h : heap) : task :=
  match length_is_zero (playerPuzzles h) with
  | Throw e => Done (show_failed e h)
  | Normal true => and_then (loadPlayerPuzzles h) (fun h' => Done (show_found puzzleId h').1)
  | Normal false => Done (show_found puzzleId h).1
  end.

(** The promise chain of [loadHtmlPuzzle] once [fetch] has settled: the
    heap it leaves and the initializer handed to [setTimeout]. *)
Definition loadHtmlPuzzle (load : html_load) (result : GameAPI.fetch_result) (h : heap)
  : heap * option initializer :=
  let failed error :=
    (showError "퍼즐을 불러오는 데 실패했습니다."
       (log (ConsoleError "HTML 퍼즐 로드 실패:" (Some error)) h), None) in
  match result with
  | GameAPI.NetworkError error => failed error
  | GameAPI.Responded r =>
      if negb (GameAPI.ok r) then failed (VError "Error" "Network response was not ok")
      else
        match querySelector (GameAPI.body r) (to_string (hl_selector load)) with
        | Throw error => failed error
        | Normal None => (showError "퍼즐 콘텐츠를 찾을 수 없습니다." h, None)
        | Normal (Some container) =>
            (with_view (fun v =>
               {| modal_shown := modal_shown v; modalTitle := modalTitle v;
                  puzzleContent := container; feedback := None;
                  input_display := input_display v; input_value := input_value v;
                  submit_display := submit_display v; submit_text := submit_text v;
                  submit_onclick := submit_onclick v |}) h,
             hl_callback load)
        end
  end.

End Session.

(** What a click on the button does through [submitBtn.onclick]. *)
Definition click_handler (f : handler) (h : heap) : heap :=
  match f with
  | NoHandler => h
  | CloseHandler => hide h
  | ContinueHandler nextScene =>
      if to_boolean nextScene then handleNextScene nextScene (hide h) else hide h
  end.

End PuzzleSession.

(** A string without the character that separates the parts of a callback
    token. *)
Module Tokens.

Definition no_underscore (s : string) : Prop := ~ In "_"%char (list_ascii_of_string s).

End Tokens.

Module Counting.
Import ApiBridge.

(** The requests of a history that pass the precondition check of
    [apiBridge.request] on a page with the given bridge object. *)
Definition attempts {json : JSON} (bridge : option (gmap string member)) (evs : list event)
  : nat :=
  length (List.filter (fun ev => match ev with
                                 | Request methodName _ _ =>
                                     match callable bridge methodName with
                                     | Some _ => true
                                     | None => false
                                     end
                                 | NativeReply _ _ _ => false
                                 end) evs).

(** A call whose callback has been displaced from the namespace while its
    promise was pending. *)
Definition orphaned (cb : callback) (w : world) : Prop :=
  cb ∈ registered w
  /\ promises w !! cb_promise cb = Some Pending
  /\ globals w !! cb_name cb <> Some cb.

End Counting.

Module Encoding.

(** The characters a form-urlencoded value is made of. *)
Definition encoded_char (a : ascii) : bool :=
  GameAPI.form_safe a || Ascii.eqb a "+" || Ascii.eqb a "%".

Definition encoded (s : string) : Prop :=
  forallb encoded_char (list_ascii_of_string s) = true.

End Encoding.

(** More pages to run the model on. *)
Module DemoMore.
Import PuzzleManager PuzzleSession Demo.

Definition with_puzzles (puzzles : value) : heap :=
  {| gameAPI := demo_api; currentPuzzleId := VNull; playerPuzzles := puzzles;
     view := demo_page; localStorage := ∅; console := [] |}.

(** A record whose identifier is the number zero. *)
Definition zero_puzzle : value :=
  VObj [("id", VNum 0); ("title", VStr "zero"); ("type", VStr "text");
        ("question", VStr "What comes first?")].

(** A record that lacks its [type]. *)
Definition typeless_puzzle : value :=
  VObj [("id", VStr "broken"); ("title", VStr "broken")].

(** The page after a solved puzzle: the button carries the continuation. *)
Definition solved_heap : heap :=
  with_view (set_onclick (ContinueHandler (VStr "hallway")))
    (with_view (success_view "Correct!") demo_heap).

Definition corrupt_storage : gmap string string := {[ "playerPuzzles" := "{oops" ]}.

Definition wrong : value := VObj [("success", VBool false)].

(** A document in which every selector finds the same fragment. *)
Definition demo_dom : DOM :=
  {| querySelector := fun html selector => Normal (Some "<div id=puzzle></div>") |}.

End DemoMore.

(* ===================================================================== *)
(** ** Properties of the native bridge *)
(* ===================================================================== *)

Module BridgeProps.
Import ApiBridge Demo.


Lemma consistent_fresh bridge : consistent (fresh bridge).
Proof.
  split; simpl; intros.
  - by rewrite lookup_empty in H.
  - by apply elem_of_nil in H.
  - by apply elem_of_nil in H.
  - by apply elem_of_nil in H.
  - by apply elem_of_nil in H.
Qed.

(** Only four fields matter to [consistent]. *)
Lemma consistent_ext w w' :
  globals w' = globals w -> promises w' = promises w ->
  registered w' = registered w -> removed w' = removed w ->
  consistent w -> consistent w'.
Proof.
  intros Hg Hp Hr Hd [H1 H2 H3 H4 H5].
  split; unfold settled, times_removed in *; rewrite ?Hg, ?Hp, ?Hr, ?Hd; auto.
  all: intros; rewrite ?Hg, ?Hp, ?Hr, ?Hd in *; eauto.
Qed.

Lemma consistent_log entry w : consistent w -> consistent (log entry w).
Proof. by apply consistent_ext. Qed.

Lemma count_occ_snoc (l : list callback) (x y : callback) :
  count_occ callback_eq_dec (l ++ [x]) y
  = count_occ callback_eq_dec l y + (if decide (x = y) then 1 else 0).
Proof.
  rewrite count_occ_app. simpl.
  destruct (callback_eq_dec x y), (decide (x = y)); congruence.
Qed.

Lemma not_removed_count (l : list callback) (x : callback) :
  x ∉ l -> count_occ callback_eq_dec l x = 0.
Proof.
  intros Hx. apply count_occ_not_In. by rewrite <- list_elem_of_In.
Qed.


(** A live callback runs: its promise settles and its name is deleted. *)
Lemma consistent_finish w w' n cb s :
  consistent w -> globals w !! n = Some cb -> s <> Pending ->
  globals w' = delete n (globals w) ->
  promises w' = <[cb_promise cb := s]> (promises w) ->
  registered w' = registered w ->
  removed w' = removed w ++ [cb] ->
  consistent w'.
Proof.
  intros Hc Hn Hs Hg Hp Hr Hd.
  destruct (live_ok w Hc n cb Hn) as (Hname & Hreg & Hpend).
  assert (Hlt : cb_promise cb < length (promises w)) by by apply reg_alloc.
  split; unfold settled, times_removed; rewrite ?Hg, ?Hp, ?Hr, ?Hd.
  - intros m c Hm.
    destruct (decide (n = m)) as [->|Hne]; [by rewrite lookup_delete_eq in Hm|].
    rewrite lookup_delete_ne in Hm by done.
    destruct (live_ok w Hc m c Hm) as (? & ? & ?). split_and!; try done.
    rewrite list_lookup_insert_ne; [done|].
    intros Heq. apply Hne. rewrite <- Hname, <- H.
    f_equal. by apply (reg_inj w Hc).
  - intros c Hin. rewrite length_insert. by apply reg_alloc.
  - apply reg_inj, Hc.
  - intros c [Hin|Hin%list_elem_of_singleton]%elem_of_app.
    + by apply rem_reg.
    + by subst.
  - intros c Hin. rewrite count_occ_snoc.
    destruct (decide (cb = c)) as [<-|Hne].
    + right. split.
      * exists s. split; [|done]. by apply list_lookup_insert_eq.
      * destruct (reg_state w Hc cb Hreg) as [[_ H0]|[(s' & Hs' & Hne') _]].
        -- unfold times_removed in H0. lia.
        -- congruence.
    + assert (cb_promise cb <> cb_promise c).
      { intros Heq. apply Hne. by apply (reg_inj w Hc). }
      rewrite list_lookup_insert_ne by done.
      rewrite Nat.add_0_r. apply (reg_state w Hc c Hin).
Qed.

(** [settle] on a pending promise, spelled out. *)
Lemma settle_pending p s w :
  promises w !! p = Some Pending ->
  settle p s w =
  {| android := android w; globals := globals w; promises := <[p := s]> (promises w);
     console := console w; native_calls := native_calls w;
     registered := registered w; removed := removed w |}.
Proof. intros H. unfold settle. by rewrite H. Qed.

Section WithJSON.
Context {json : JSON}.


Lemma verdict_not_pending result error : verdict result error <> Pending.
Proof. unfold verdict. destruct (to_boolean error); [destruct (JSON_parse _)|]; done. Qed.

(** The callback body on a live callback, field by field. *)
Lemma native_callback_live w n cb result error :
  consistent w -> globals w !! n = Some cb ->
  let w' := native_callback cb result error w in
  android w' = android w
  /\ globals w' = delete n (globals w)
  /\ promises w' = <[cb_promise cb := verdict result error]> (promises w)
  /\ native_calls w' = native_calls w
  /\ registered w' = registered w
  /\ removed w' = removed w ++ [cb].
Proof.
  intros Hc Hn.
  destruct (live_ok w Hc n cb Hn) as (Hname & Hreg & Hpend).
  unfold native_callback, verdict. simpl.
  destruct (to_boolean error); [destruct (JSON_parse _)|].
  all: rewrite settle_pending by done; unfold delete_global; simpl;
    rewrite Hname, Hn; simpl; done.
Qed.

Lemma consistent_invoke_global w name result error :
  consistent w -> consistent (invoke_global name result error w).
Proof.
  intros Hc. unfold invoke_global.
  destruct (globals w !! name) as [cb|] eqn:Hn; [|done].
  destruct (native_callback_live w name cb result error Hc Hn) as (_ & ? & ? & _ & ? & ?).
  eapply consistent_finish; eauto using verdict_not_pending.
Qed.

Lemma registered_invoke_global w name result error :
  registered (invoke_global name result error w) = registered w.
Proof.
  unfold invoke_global, native_callback, delete_global, settle.
  repeat (case_match; simpl; try done).
Qed.

Lemma android_invoke_global w name result error :
  android (invoke_global name result error w) = android w.
Proof.
  unfold invoke_global, native_callback, delete_global, settle.
  repeat (case_match; simpl; try done).
Qed.


Lemma in_place_or_done_invoke_global w cb name result error :
  consistent w -> in_place_or_done cb w ->
  in_place_or_done cb (invoke_global name result error w).
Proof.
  intros Hc Hmid. unfold invoke_global.
  destruct (globals w !! name) as [c|] eqn:Hn; [|done].
  destruct (native_callback_live w name c result error Hc Hn) as (_ & Hg & Hp & _ & _ & _).
  destruct (live_ok w Hc name c Hn) as (Hname & Hreg & Hpend).
  unfold in_place_or_done, settled. rewrite Hg, Hp.
  destruct (decide (name = cb_name cb)) as [Heq|Hne].
  - right. rewrite <- Heq, lookup_delete_eq. split; [done|].
    destruct Hmid as [Hin|[Hnone _]]; [|congruence].
    rewrite <- Heq, Hn in Hin. injection Hin as ->.
    exists (verdict result error). split; [|apply verdict_not_pending].
    apply list_lookup_insert_eq. by apply lookup_lt_Some in Hpend.
  - rewrite lookup_delete_ne by done.
    destruct Hmid as [Hin|[Hnone (s & Hs & Hsp)]]; [by left|right].
    split; [done|]. exists s. split; [|done].
    rewrite list_lookup_insert_ne; [done|]. congruence.
Qed.

Lemma invoke_all_preserves cb replies w :
  consistent w -> in_place_or_done cb w ->
  consistent (invoke_all replies w) /\ in_place_or_done cb (invoke_all replies w)
  /\ registered (invoke_all replies w) = registered w.
Proof.
  revert w. induction replies as [|[[name result] error] replies IH]; intros w Hc Hmid.
  - done.
  - unfold invoke_all. simpl. fold (invoke_all replies (invoke_global name result error w)).
    destruct (IH (invoke_global name result error w)) as (? & ? & Hr).
    + by apply consistent_invoke_global.
    + by apply in_place_or_done_invoke_global.
    + split_and!; try done. by rewrite Hr, registered_invoke_global.
Qed.

(** The state right after the registration (line 25 has been executed). *)
Lemma consistent_register w methodName name :
  consistent w ->
  let cb := {| cb_method := methodName; cb_name := name;
               cb_promise := length (promises w) |} in
  let w2 := set_global name cb (new_promise Pending w).1 in
  consistent w2 /\ globals w2 !! name = Some cb /\ registered w2 = registered w ++ [cb].
Proof.
  intros Hc cb w2. split_and!; [|apply lookup_insert_eq|done].
  assert (Hfresh : cb ∉ registered w).
  { intros Hin. apply (reg_alloc w Hc) in Hin. simpl in Hin. lia. }
  assert (Hold : forall c, c ∈ registered w ->
            (promises w ++ [Pending]) !! cb_promise c = promises w !! cb_promise c).
  { intros c Hin. apply lookup_app_l. by apply reg_alloc. }
  split; unfold settled, times_removed; simpl.
  - intros n c Hn. destruct (decide (name = n)) as [<-|Hne].
    + rewrite lookup_insert_eq in Hn. injection Hn as <-.
      split_and!; [done|set_solver|]. simpl. by rewrite lookup_app_r, Nat.sub_diag.
    + rewrite lookup_insert_ne in Hn by done.
      destruct (live_ok w Hc n c Hn) as (? & ? & ?).
      split_and!; [done|set_solver|]. by rewrite Hold.
  - intros c [Hin|Hin%list_elem_of_singleton]%elem_of_app; rewrite length_app; simpl.
    + apply (reg_alloc w Hc) in Hin. lia.
    + subst c. simpl. lia.
  - intros c c' [Hin|Hin%list_elem_of_singleton]%elem_of_app
             [Hin'|Hin'%list_elem_of_singleton]%elem_of_app Heq.
    + by apply (reg_inj w Hc).
    + subst c'. apply (reg_alloc w Hc) in Hin. simpl in Heq. lia.
    + subst c. apply (reg_alloc w Hc) in Hin'. simpl in Heq. lia.
    + congruence.
  - intros c Hin. apply (rem_reg w Hc) in Hin. set_solver.
  - intros c [Hin|Hin%list_elem_of_singleton]%elem_of_app.
    + rewrite Hold by done. apply (reg_state w Hc c Hin).
    + subst c. left. simpl. split; [by rewrite lookup_app_r, Nat.sub_diag|].
      apply not_removed_count. intros Hin. by apply (rem_reg w Hc) in Hin.
Qed.

Lemma settle_settled p s w : settled w p -> settle p s w = w.
Proof. intros (s' & Hs' & Hne). unfold settle. rewrite Hs'. by destruct s'. Qed.

(** The [catch] block of [request] (lines 52-54). *)
Lemma consistent_catch w cb e entry :
  consistent w -> in_place_or_done cb w ->
  consistent (delete_global (cb_name cb) (settle (cb_promise cb) (Rejected e) (log entry w))).
Proof.
  intros Hc [Hin|[Hnone Hset]].
  - destruct (live_ok w Hc _ cb Hin) as (Hname & Hreg & Hpend).
    rewrite settle_pending by done. unfold delete_global. simpl. rewrite Hin.
    eapply (consistent_finish w); eauto; done.
  - rewrite settle_settled by done. unfold delete_global. simpl. rewrite Hnone.
    by apply consistent_log.
Qed.

(** The world a successful precondition check leads to, up to the point
    where the bridge method has returned or thrown. *)
Lemma request_callable w methodName args now f :
  callable (android w) methodName = Some f ->
  let name := callback_name methodName now in
  let cb := {| cb_method := methodName; cb_name := name;
               cb_promise := length (promises w) |} in
  let call := map final_arg args ++ [VStr name] in
  let w4 := invoke_all (sync_replies (f call))
              (record_native_call methodName call
                 (set_global name cb (new_promise Pending w).1)) in
  request methodName args now w =
  (match sync_throw (f call) with
   | Some e =>
       delete_global name
         (settle (length (promises w)) (Rejected e)
            (log (ConsoleError ("네이티브 브릿지 호출 중 예외 발생 (" +:+ methodName +:+ "):")
                               (Some e)) w4))
   | None => w4
   end, length (promises w)).
Proof.
  intros Hf. unfold request. rewrite Hf. simpl.
  by destruct (sync_throw _).
Qed.

Lemma registered_finish name p s entry w :
  registered (delete_global name (settle p s (log entry w))) = registered w.
Proof. unfold delete_global, settle. repeat (case_match; simpl; try done). Qed.

Lemma request_preserves w methodName args now :
  consistent w ->
  consistent (request methodName args now w).1
  /\ (is_Some (callable (android w) methodName) ->
      registered (request methodName args now w).1
      = registered w ++ [{| cb_method := methodName;
                            cb_name := callback_name methodName now;
                            cb_promise := (request methodName args now w).2 |}]).
Proof.
  intros Hc. destruct (callable (android w) methodName) as [f|] eqn:Hf.
  - rewrite (request_callable w methodName args now f Hf). simpl.
    set (name := callback_name methodName now).
    set (cb := {| cb_method := methodName; cb_name := name;
                  cb_promise := length (promises w) |}).
    set (call := map final_arg args ++ [VStr name]).
    destruct (consistent_register w methodName name Hc) as (Hc2 & Hin2 & Hr2).
    fold cb in Hc2, Hin2, Hr2.
    destruct (invoke_all_preserves cb (sync_replies (f call))
                (record_native_call methodName call
                   (set_global name cb (new_promise Pending w).1)))
      as (Hc4 & Hmid4 & Hr4).
    { by eapply consistent_ext; [..|exact Hc2]. }
    { by left. }
    destruct (sync_throw (f call)) as [e|].
    + split; [by apply (consistent_catch _ cb)|intros _].
      rewrite (registered_finish name). exact Hr4.
    + split; [done|intros _]. exact Hr4.
  - split; [|by intros [? ?]].
    unfold request. rewrite Hf. simpl.
    split; unfold settled, times_removed; simpl.
    + intros n cb Hn. destruct (live_ok w Hc n cb Hn) as (? & ? & ?).
      split_and!; try done. rewrite lookup_app_l; [done|by apply reg_alloc].
    + intros cb Hin. rewrite length_app. apply (reg_alloc w Hc) in Hin. lia.
    + apply reg_inj, Hc.
    + apply rem_reg, Hc.
    + intros cb Hin. rewrite lookup_app_l by by apply reg_alloc.
      apply (reg_state w Hc cb Hin).
Qed.

Lemma consistent_step w ev : consistent w -> consistent (step w ev).
Proof.
  intros Hc. destruct ev; simpl.
  - by apply request_preserves.
  - by apply consistent_invoke_global.
Qed.

Lemma consistent_run w evs : consistent w -> consistent (run w evs).
Proof.
  revert w. induction evs as [|ev evs IH]; intros w Hc; [done|].
  apply IH. by apply consistent_step.
Qed.

Lemma registered_step w ev cb : consistent w -> cb ∈ registered w -> cb ∈ registered (step w ev).
Proof.
  intros Hc Hin. destruct ev as [m args now|name result error]; simpl.
  - destruct (callable (android w) m) as [f|] eqn:Hf.
    + destruct (request_preserves w m args now Hc) as [_ Hr].
      rewrite Hr by by rewrite Hf. set_solver.
    + unfold request. by rewrite Hf.
  - by rewrite registered_invoke_global.
Qed.

Lemma registered_run w evs cb : consistent w -> cb ∈ registered w -> cb ∈ registered (run w evs).
Proof.
  revert w. induction evs as [|ev evs IH]; intros w Hc Hin; [done|].
  apply IH; [by apply consistent_step|by apply registered_step].
Qed.


Lemma settled_are_gone_invoke_global w0 w name result error :
  consistent w -> settled_are_gone w0 w ->
  settled_are_gone w0 (invoke_global name result error w).
Proof.
  intros Hc Hgone cb. rewrite registered_invoke_global. unfold invoke_global.
  destruct (globals w !! name) as [c|] eqn:Hn; [|by apply Hgone].
  destruct (native_callback_live w name c result error Hc Hn) as (_ & Hg & Hp & _ & _ & _).
  destruct (live_ok w Hc name c Hn) as (Hname & Hreg & Hpend).
  intros Hin Hnot (s & Hs & Hsp). rewrite Hg. rewrite Hp in Hs.
  destruct (decide (cb_promise c = cb_promise cb)) as [Heq|Hne].
  - assert (c = cb) as <- by by apply (reg_inj w Hc).
    by rewrite Hname, lookup_delete_eq.
  - rewrite list_lookup_insert_ne in Hs by done.
    apply lookup_delete_None. right. apply Hgone; [done..|]. by exists s.
Qed.

Lemma settled_are_gone_invoke_all w0 replies w :
  consistent w -> settled_are_gone w0 w ->
  settled_are_gone w0 (invoke_all replies w).
Proof.
  revert w. induction replies as [|[[name result] error] replies IH]; intros w Hc Hgone; [done|].
  apply (IH (invoke_global name result error w)).
  - by apply consistent_invoke_global.
  - by apply settled_are_gone_invoke_global.
Qed.

Lemma settled_are_gone_step w ev : consistent w -> settled_are_gone w (step w ev).
Proof.
  intros Hc. destruct ev as [m args now|name result error]; simpl.
  - destruct (callable (android w) m) as [f|] eqn:Hf.
    + rewrite (request_callable w m args now f Hf). simpl.
      set (name := callback_name m now).
      set (cb := {| cb_method := m; cb_name := name; cb_promise := length (promises w) |}).
      set (call := map final_arg args ++ [VStr name]).
      set (w3 := record_native_call m call _).
      destruct (consistent_register w m name Hc) as (Hc2 & Hin2 & Hr2).
      fold cb in Hc2, Hin2, Hr2.
      assert (Hc3 : consistent w3) by by eapply consistent_ext; [..|exact Hc2].
      assert (Hgone3 : settled_are_gone w w3).
      { intros c Hin Hnot (s & Hs & Hsp). exfalso. apply Hnot. exists s. split; [|done].
        simpl in Hs. apply lookup_app_Some in Hs as [Hs|[_ Hs]]; [done|].
        destruct (cb_promise c - length (promises w)) as [|k]; simpl in Hs; [congruence|].
        by rewrite lookup_nil in Hs. }
      destruct (invoke_all_preserves cb (sync_replies (f call)) w3 Hc3) as (Hc4 & Hmid4 & Hr4).
      { by left. }
      pose proof (settled_are_gone_invoke_all w (sync_replies (f call)) w3 Hc3 Hgone3) as Hgone4.
      destruct (sync_throw (f call)) as [e|]; [|done].
      set (w4 := invoke_all _ w3) in *.
      destruct Hmid4 as [Hin|[Hnone Hset]].
      * destruct (live_ok w4 Hc4 _ cb Hin) as (Hname & Hreg & Hpend). simpl in Hin, Hpend.
        rewrite settle_pending by done. unfold delete_global. simpl. rewrite Hin.
        intros c Hc' Hnot (s & Hs & Hsp). simpl in *.
        destruct (decide (cb_promise c = length (promises w))) as [Heq|Hne].
        -- assert (c = cb) as -> by by apply (reg_inj w4 Hc4).
           apply lookup_delete_eq.
        -- rewrite list_lookup_insert_ne in Hs by done.
           apply lookup_delete_None. right. apply Hgone4; [done..|]. by exists s.
      * rewrite settle_settled by done. unfold delete_global. simpl. simpl in Hnone.
        rewrite Hnone. exact Hgone4.
    + unfold request. rewrite Hf. simpl.
      intros c Hin Hnot (s & Hs & Hsp). exfalso. apply Hnot. exists s. split; [|done].
      simpl in Hs. rewrite lookup_app_l in Hs; [done|by apply reg_alloc].
  - apply settled_are_gone_invoke_global; [done|].
    intros c _ Hnot Hs. done.
Qed.

(** A settled call has left no trace in the namespace. *)
Lemma settled_not_live w cb :
  consistent w -> settled w (cb_promise cb) -> forall n, globals w !! n <> Some cb.
Proof.
  intros Hc (s & Hs & Hsp) n Hn.
  destruct (live_ok w Hc n cb Hn) as (_ & _ & Hpend). congruence.
Qed.

Lemma settled_removed_once w cb :
  consistent w -> cb ∈ registered w -> settled w (cb_promise cb) -> times_removed cb w = 1.
Proof.
  intros Hc Hin (s & Hs & Hsp).
  destruct (reg_state w Hc cb Hin) as [[Hpend _]|[_ Hone]]; [congruence|done].
Qed.

Lemma native_calls_invoke_all replies w :
  native_calls (invoke_all replies w) = native_calls w.
Proof.
  revert w. induction replies as [|[[name result] error] replies IH]; intros w; [done|].
  unfold invoke_all. simpl. fold (invoke_all replies (invoke_global name result error w)).
  rewrite IH. unfold invoke_global, native_callback, delete_global, settle.
  repeat (case_match; simpl; try done).
Qed.

Lemma registered_invoke_all replies w :
  registered (invoke_all replies w) = registered w.
Proof.
  revert w. induction replies as [|[[name result] error] replies IH]; intros w; [done|].
  unfold invoke_all. simpl. fold (invoke_all replies (invoke_global name result error w)).
  by rewrite IH, registered_invoke_global.
Qed.

Lemma native_calls_finish name p s entry w :
  native_calls (delete_global name (settle p s (log entry w))) = native_calls w.
Proof. unfold delete_global, settle. repeat (case_match; simpl; try done). Qed.

(** C1. In every world a page can reach, a bridge call that has settled
    (by a success reply, by an error reply, or because the bridge method
    threw) has had its callback deleted from the global namespace exactly
    once and no property of the namespace holds it any more; and at the end
    of the very step that settled the call, nothing is left under its
    token. *)
Theorem callback_removed_exactly_once
    (bridge : option (gmap string member)) (evs : list event) (ev : event) (cb : callback) :
  let w := run (fresh bridge) evs in
  let w' := step w ev in
  cb ∈ registered w' ->
  settled w' (cb_promise cb) ->
  times_removed cb w' = 1
  /\ (forall n, globals w' !! n <> Some cb)
  /\ (~ settled w (cb_promise cb) -> globals w' !! cb_name cb = None).
Proof.
  intros w w' Hin Hset.
  assert (Hc : consistent w) by apply consistent_run, consistent_fresh.
  assert (Hc' : consistent w') by by apply consistent_step.
  split_and!.
  - by apply settled_removed_once.
  - by apply settled_not_live.
  - intros Hnot. by apply (settled_are_gone_step w ev Hc).
Qed.

(** C2. When the page has no bridge object, or the bridge object has no
    callable member of the given name, [request] returns a promise that is
    already rejected with an [Error] whose message names the method; the
    global namespace, the record of registrations and removals, the calls
    into the bridge and all earlier promises are as before. *)
Theorem request_without_bridge_rejects
    (w : world) (methodName : string) (args : list value) (now : Z) :
  android w = None
  \/ (exists b, android w = Some b /\ forall f, b !! methodName <> Some (MemberFn f)) ->
  let r := request methodName args now w in
  promises r.1 !! r.2 = Some (Rejected (VError "Error" (not_found_message methodName)))
  /\ (exists before after, not_found_message methodName = before +:+ methodName +:+ after)
  /\ globals r.1 = globals w
  /\ registered r.1 = registered w
  /\ removed r.1 = removed w
  /\ native_calls r.1 = native_calls w
  /\ promises r.1 = promises w ++ [Rejected (VError "Error" (not_found_message methodName))].
Proof.
  intros Habsent r.
  assert (Hnone : callable (android w) methodName = None).
  { destruct Habsent as [H|(b & H & Hb)]; unfold callable; rewrite H; [done|].
    destruct (b !! methodName) as [[f|v]|] eqn:E; [|done..]. by destruct (Hb f). }
  subst r. unfold request. rewrite Hnone. simpl.
  split_and!; try done.
  - by rewrite lookup_app_r, Nat.sub_diag.
  - by eexists _, _.
Qed.


Lemma promises_delete_global name w : promises (delete_global name w) = promises w.
Proof. unfold delete_global. by case_match. Qed.

Lemma console_delete_global name w : ApiBridge.console (delete_global name w) = ApiBridge.console w.
Proof. unfold delete_global. by case_match. Qed.

(** C10. The callback tests its error argument for truthiness.  Called
    with a falsy error -- the empty string, zero, [null], [undefined] --
    it resolves the pending promise with the result, logs nothing and
    consults no parser; the promise ends up rejected only if the error
    argument was truthy. *)
Theorem falsy_error_resolves (cb : callback) (result error : value) (w : world) :
  promises w !! cb_promise cb = Some Pending ->
  let w' := native_callback cb result error w in
  (to_boolean error = false ->
     w' = delete_global (cb_name cb) (settle (cb_promise cb) (Fulfilled result) w)
     /\ promises w' !! cb_promise cb = Some (Fulfilled result)
     /\ ApiBridge.console w' = ApiBridge.console w)
  /\ (forall e, promises w' !! cb_promise cb = Some (Rejected e) -> to_boolean error = true)
  /\ (error ∈ [VStr ""; VNum 0; VNull; VUndefined] -> to_boolean error = false).
Proof.
  intros Hpend w'. subst w'. unfold native_callback.
  assert (Hlt : cb_promise cb < length (promises w)) by by eapply lookup_lt_Some.
  split_and!.
  - intros ->. split_and!; [done|..].
    + rewrite promises_delete_global, settle_pending by done. simpl.
      by apply list_lookup_insert_eq.
    + by rewrite console_delete_global, settle_pending.
  - intros e. destruct (to_boolean error); [done|].
    rewrite promises_delete_global, settle_pending by done. simpl.
    rewrite list_lookup_insert_eq by done. congruence.
  - intros Hin. repeat (apply elem_of_cons in Hin as [->|Hin]; [done|]).
    by apply elem_of_nil in Hin.
Qed.

End WithJSON.

(** *** The statements above on a concrete page *)

Lemma callback_removed_exactly_once_witness :
  (* a success reply *)
  (let w := run (fresh (Some demo_bridge)) [Request "getGameInfo" [] 1700000000000] in
   let w' := step w (NativeReply demo_token (VObj [("title", VStr "retest")]) VUndefined) in
   globals w !! demo_token = Some demo_callback
   /\ promises w' !! 0 = Some (Fulfilled (VObj [("title", VStr "retest")]))
   /\ times_removed demo_callback w' = 1
   /\ (forall n, globals w' !! n <> Some demo_callback)
   /\ (~ settled w 0 -> globals w' !! demo_token = None))
  (* an error reply carrying a JSON text *)
  /\ (let w := run (fresh (Some demo_bridge)) [Request "getGameInfo" [] 1700000000000] in
      let w' := step w (NativeReply demo_token VNull
                          (VStr (MiniJSON.stringify (VObj [("code", VNum 7)])))) in
      promises w' !! 0 = Some (Rejected (VObj [("code", VNum 7)]))
      /\ times_removed demo_callback w' = 1
      /\ (forall n, globals w' !! n <> Some demo_callback))
  (* a bridge method that throws *)
  /\ (let crashed := {| cb_method := "crash";
                        cb_name := "__native_callback_crash_1700000000000";
                        cb_promise := 0 |} in
      let w' := step (run (fresh (Some demo_bridge)) []) (Request "crash" [] 1700000000000) in
      promises w' !! 0 = Some (Rejected (VError "Error" "bridge down"))
      /\ times_removed crashed w' = 1
      /\ (forall n, globals w' !! n <> Some crashed)).
Proof.
  split_and!.
  - intros w w'. split; [by vm_compute|]. split; [by vm_compute|].
    apply (callback_removed_exactly_once (Some demo_bridge)
             [Request "getGameInfo" [] 1700000000000]
             (NativeReply demo_token (VObj [("title", VStr "retest")]) VUndefined)
             demo_callback).
    + vm_compute. apply list_elem_of_here.
    + exists (Fulfilled (VObj [("title", VStr "retest")])). split; [by vm_compute|done].
  - intros w w'. split; [by vm_compute|].
    destruct (callback_removed_exactly_once (Some demo_bridge)
                [Request "getGameInfo" [] 1700000000000]
                (NativeReply demo_token VNull
                   (VStr (MiniJSON.stringify (VObj [("code", VNum 7)]))))
                demo_callback) as (Honce & Hgone & _).
    + vm_compute. apply list_elem_of_here.
    + exists (Rejected (VObj [("code", VNum 7)])). split; [by vm_compute|done].
    + split; [exact Honce|exact Hgone].
  - intros crashed w'. split; [by vm_compute|].
    destruct (callback_removed_exactly_once (Some demo_bridge) []
                (Request "crash" [] 1700000000000) crashed) as (Honce & Hgone & _).
    + vm_compute. apply list_elem_of_here.
    + exists (Rejected (VError "Error" "bridge down")). split; [by vm_compute|done].
    + split; [exact Honce|exact Hgone].
Defined.

Lemma request_without_bridge_rejects_witness :
  let r := request "version" [VNum 1] 1700000000000 (fresh (Some demo_bridge)) in
  promises r.1 !! r.2 = Some (Rejected (VError "Error" (not_found_message "version")))
  /\ globals r.1 = ∅.
Proof.
  destruct (request_without_bridge_rejects (fresh (Some demo_bridge)) "version" [VNum 1]
              1700000000000) as (H1 & _ & H2 & _).
  - right. exists demo_bridge. split; [done|]. intros f. by vm_compute.
  - split; [exact H1|exact H2].
Defined.


Lemma falsy_error_resolves_witness :
  let w := run (fresh (Some demo_bridge)) [Request "getGameInfo" [] 1700000000000] in
  promises (native_callback demo_callback (VNum 42) (VStr "") w) !! 0
  = Some (Fulfilled (VNum 42)).
Proof.
  intros w.
  destruct (falsy_error_resolves demo_callback (VNum 42) (VStr "") w) as (H & _ & _).
  - by vm_compute.
  - by destruct (H eq_refl) as (_ & Hp & _).
Defined.

End BridgeProps.

(* ===================================================================== *)
(** ** Properties of the request router *)
(* ===================================================================== *)

Module RouterProps.
Import GameAPI Demo.

Section WithJSON.
Context {json : JSON}.

(** C4, amended.  Without a bridge every routed call is a [fetch] of the
    operation's path under the base URL, and it settles by the status of
    the response: outside 200-299 it rejects with an [Error] whose message
    holds the status code and the body text; inside, it resolves with the
    body parsed as JSON when the body is JSON, and rejects with the
    parser's error when it is not.  [getGameInfo] fetches [/game/info]
    with no method of its own, and a 500 answer with body [boom] rejects it
    with status 500 and message [boom]. *)
Theorem http_status_decides (api : t) (req : api_request) (r : response) :
  useBridge api = false ->
  exists options k,
    request api req = ViaFetch (baseURL api +:+ fetchUrl req) options k
    /\ (ok r = false ->
          (k (Responded r)).1
          = Failed (VError "Error" ("HTTP error! status: " +:+ pretty (status r)
                                    +:+ ", message: " +:+ body r)))
    /\ (ok r = true -> forall parsed, JSON_parse (body r) = Normal parsed ->
          k (Responded r) = (Resolved parsed, []))
    /\ (ok r = true -> forall e, JSON_parse (body r) = Throw e ->
          (k (Responded r)).1 = Failed e)
    /\ (k (Responded {| status := 500; body := "boom" |})).1
       = Failed (VError "Error" "HTTP error! status: 500, message: boom")
    /\ request api (getGameInfo api)
       = ViaFetch (baseURL api +:+ "/game/info")
           [("headers", VObj [("Content-Type", VStr "application/json")])] k.
Proof.
  intros Hweb. unfold request. rewrite Hweb. eexists _, http_settle. split_and!.
  - done.
  - intros Hbad. unfold http_settle. by rewrite Hbad.
  - intros Hok parsed Hparse. unfold http_settle. by rewrite Hok, Hparse.
  - intros Hok e Hparse. unfold http_settle. by rewrite Hok, Hparse.
  - done.
  - done.
Qed.

End WithJSON.


Lemma http_status_decides_witness :
  exists k,
    request web_api (getGameInfo web_api)
    = ViaFetch "http://localhost:8080/api/game/info"
        [("headers", VObj [("Content-Type", VStr "application/json")])] k
    /\ (k (Responded {| status := 500; body := "boom" |})).1
       = Failed (VError "Error" "HTTP error! status: 500, message: boom")
    /\ k (Responded {| status := 200; body := "[1, 2]" |})
       = (Resolved (VArr [VNum 1; VNum 2]), []).
Proof.
  destruct (http_status_decides web_api (getGameInfo web_api)
              {| status := 200; body := "[1, 2]" |} eq_refl)
    as (options & k & Hreq & _ & Hok & _ & Hboom & Hinfo).
  exists k. split; [exact Hinfo|]. split; [exact Hboom|].
  apply Hok; reflexivity.
Defined.

(** C4 as stated fails: a success status does not make the call resolve.
    An answer with status 204 and no body is read as JSON like any other,
    and the call rejects. *)
Lemma success_status_without_json_rejects :
  exists k e,
    request web_api (getGameInfo web_api)
    = ViaFetch "http://localhost:8080/api/game/info"
        [("headers", VObj [("Content-Type", VStr "application/json")])] k
    /\ ok {| status := 204; body := "" |} = true
    /\ k (Responded {| status := 204; body := "" |})
       = (Failed e, [ConsoleError "API 요청 실패:" (Some e)]).
Proof.
  exists http_settle, (VError "SyntaxError" "Unexpected token in JSON").
  split_and!; reflexivity.
Qed.

End RouterProps.

(* ===================================================================== *)
(** ** Properties of the puzzle manager *)
(* ===================================================================== *)

Module ManagerProps.
Import PuzzleManager Demo.

Section WithJSON.
Context {json : JSON} {strings : Strings}.

(** The two ways [loadPlayerPuzzles] ends. *)
Lemma loadPlayerPuzzles_resolved h fetched meanwhile :
  exists final,
    run (loadPlayerPuzzles h) [(Resolved fetched, meanwhile)]
    = ([(GameAPI.getPlayerPuzzles (gameAPI h), h)], Some final)
    /\ playerPuzzles final = fetched
    /\ localStorage final
       = <["playerPuzzles" :=
            JSON_stringify (VObj [("playerId", VStr (GameAPI.getPlayerId (gameAPI (meanwhile h))));
                                  ("puzzles", fetched)])]> (localStorage (meanwhile h))
    /\ view final = view (meanwhile h).
Proof. eexists. split; [reflexivity|]. done. Qed.

Lemma loadPlayerPuzzles_failed h e meanwhile :
  exists final,
    run (loadPlayerPuzzles h) [(Failed e, meanwhile)]
    = ([(GameAPI.getPlayerPuzzles (gameAPI h), h)], Some final)
    /\ playerPuzzles final = playerPuzzles (meanwhile h)
    /\ localStorage final = localStorage (meanwhile h)
    /\ error_view (view final).
Proof. eexists. split; [reflexivity|]. done. Qed.

(** C3. A persisted snapshot that parses, names an owner and holds an
    array of puzzles: constructed for that owner, the manager holds exactly
    that array and asks the server nothing; constructed for anyone else, it
    holds the empty list it started with, leaves the storage as it is and
    fetches the puzzles of the current player -- afterwards memory and
    storage hold what was fetched, and after a failed fetch memory holds
    nothing of the snapshot either. *)
Theorem snapshot_restored_only_for_owner
    (api : GameAPI.t) (page : ui) (storage : gmap string string) (log0 : list log_entry)
    (text : string) (saved : value) (owner : string) (puzzles : list value) :
  storage !! "playerPuzzles" = Some text ->
  text <> "" ->
  JSON_parse text = Normal saved ->
  get "playerId" saved = Normal (VStr owner) ->
  get "puzzles" saved = Normal (VArr puzzles) ->
  let t := constructor api page storage log0 in
  (GameAPI.getPlayerId api = owner ->
     exists h,
       (forall turns, run t turns = ([], Some h))
       /\ playerPuzzles h = VArr puzzles
       /\ localStorage h = storage)
  /\ (GameAPI.getPlayerId api <> owner ->
     exists h0,
       playerPuzzles h0 = VArr []
       /\ localStorage h0 = storage
       /\ (forall fetched meanwhile, exists final,
             run t [(Resolved fetched, meanwhile)]
             = ([(GameAPI.getPlayerPuzzles api, h0)], Some final)
             /\ playerPuzzles final = fetched
             /\ localStorage final !! "playerPuzzles"
                = Some (JSON_stringify
                          (VObj [("playerId",
                                  VStr (GameAPI.getPlayerId (gameAPI (meanwhile h0))));
                                 ("puzzles", fetched)])))
       /\ (forall e meanwhile, exists final,
             run t [(Failed e, meanwhile)]
             = ([(GameAPI.getPlayerPuzzles api, h0)], Some final)
             /\ playerPuzzles final = playerPuzzles (meanwhile h0)
             /\ error_view (view final))).
Proof.
  intros Hstored Hnonempty Hparse Howner Hpuzzles t.
  apply String.eqb_neq in Hnonempty.
  subst t. unfold constructor, initializePuzzles. simpl.
  rewrite Hstored, Hnonempty. unfold restore. simpl.
  rewrite Hparse, Howner. simpl. split.
  - intros Hsame. apply String.eqb_eq in Hsame. rewrite String.eqb_sym, Hsame.
    rewrite Hpuzzles. simpl. eexists. split; [intros turns; reflexivity|]. done.
  - intros Hother. apply String.eqb_neq in Hother. rewrite String.eqb_sym, Hother.
    eexists. split_and!; [| |intros fetched meanwhile|intros e meanwhile].
    3: { destruct (loadPlayerPuzzles_resolved
                     (log (ConsoleLog "서버에서 최신 퍼즐 데이터를 가져옵니다." None)
                        {| gameAPI := api; currentPuzzleId := VNull; playerPuzzles := VArr [];
                           view := page; localStorage := storage; console := log0 |})
                     fetched meanwhile) as (final & Hrun & Hmem & Hsto & _).
         exists final. split; [exact Hrun|]. split; [exact Hmem|].
         rewrite Hsto. apply lookup_insert_eq. }
    3: { destruct (loadPlayerPuzzles_failed
                     (log (ConsoleLog "서버에서 최신 퍼즐 데이터를 가져옵니다." None)
                        {| gameAPI := api; currentPuzzleId := VNull; playerPuzzles := VArr [];
                           view := page; localStorage := storage; console := log0 |})
                     e meanwhile) as (final & Hrun & Hmem & _ & Hview).
         exists final. split; [exact Hrun|]. split; [exact Hmem|exact Hview]. }
    all: done.
Qed.

(** What every host makes of the sample input: it is ASCII text. *)
Lemma sample_answer_normalised : trim (toLowerCase "  CAT ") = "cat".
Proof.
  rewrite (toLowerCase_ascii "  CAT ") by reflexivity.
  rewrite trim_ascii by reflexivity. reflexivity.
Qed.


(** C6, as far as the code goes.  A failed load and a failed submission
    end in the error view.  A failed completion call does not: the
    [catch] of [completePuzzle] writes to the console and nothing else, so
    the page is what it was, and [checkAnswer], which awaited it, goes on
    as after a success. *)
Theorem completion_failure_is_only_logged
    (puzzleId : value) (h : heap) (e : value) (meanwhile : heap -> heap) :
  (exists final,
     run (loadPlayerPuzzles h) [(Failed e, meanwhile)]
     = ([(GameAPI.getPlayerPuzzles (gameAPI h), h)], Some final)
     /\ error_view (view final))
  /\ (to_boolean (currentPuzzleId h) = true ->
      exists call final,
        run (checkAnswer h) [(Failed e, meanwhile)] = ([(call, h)], Some final)
        /\ error_view (view final))
  /\ run (completePuzzle puzzleId h) [(Failed e, meanwhile)]
     = ([(GameAPI.completePuzzle (gameAPI h) puzzleId, h)],
        Some (log (ConsoleError "퍼즐 완료 처리 실패:" (Some e)) (meanwhile h)))
  /\ view (log (ConsoleError "퍼즐 완료 처리 실패:" (Some e)) (meanwhile h))
     = view (meanwhile h).
Proof.
  split_and!.
  - eexists. split; [reflexivity|done].
  - intros Hcur. unfold checkAnswer. rewrite Hcur. simpl.
    eexists _, _. split; [reflexivity|done].
  - reflexivity.
  - reflexivity.
Qed.

(** C7, amended.  [completePuzzle] first awaits the completion call.  If
    that call succeeds, whatever it returns, the puzzles of the current
    player are fetched next; a successful fetch replaces the list in memory
    and the persisted snapshot by what was fetched, a failed one leaves
    both alone.  If the completion call fails, nothing more is asked of the
    server and list and snapshot stay as they are.  In no case is a single
    record of the list changed. *)
Theorem completion_refreshes_after_success
    (puzzleId : value) (h : heap) (v e : value) (m1 m2 : heap -> heap) (o2 : outcome) :
  let h1 := m1 h in
  (exists final,
     run (completePuzzle puzzleId h) [(Resolved v, m1); (o2, m2)]
     = ([(GameAPI.completePuzzle (gameAPI h) puzzleId, h);
         (GameAPI.getPlayerPuzzles (gameAPI h1), h1)], Some final)
     /\ (forall puzzles, o2 = Resolved puzzles ->
           playerPuzzles final = puzzles
           /\ localStorage final
              = <["playerPuzzles" :=
                   JSON_stringify
                     (VObj [("playerId", VStr (GameAPI.getPlayerId (gameAPI (m2 h1))));
                            ("puzzles", puzzles)])]> (localStorage (m2 h1)))
     /\ (forall e2, o2 = Failed e2 ->
           playerPuzzles final = playerPuzzles (m2 h1)
           /\ localStorage final = localStorage (m2 h1)))
  /\ (exists final,
        run (completePuzzle puzzleId h) [(Failed e, m1); (o2, m2)]
        = ([(GameAPI.completePuzzle (gameAPI h) puzzleId, h)], Some final)
        /\ playerPuzzles final = playerPuzzles h1
        /\ localStorage final = localStorage h1).
Proof.
  intros h1. split.
  - destruct o2 as [puzzles|e2]; simpl; eexists; (split; [reflexivity|]);
      split; intros ? [=]; subst; done.
  - eexists. split; [reflexivity|done].
Qed.

(** C9. [hide] leaves the session without a current puzzle whatever the
    heap was and takes the [show] class off the modal; doing it twice is
    doing it once; an idle session stays idle; the player, the puzzle list
    and the storage are not touched and no game operation is awaited. *)
Theorem hide_returns_to_idle (h : heap) :
  idle (hide h)
  /\ hide (hide h) = hide h
  /\ (idle h -> idle (hide h))
  /\ modal_shown (view (hide h)) = false
  /\ gameAPI (hide h) = gameAPI h
  /\ playerPuzzles (hide h) = playerPuzzles h
  /\ localStorage (hide h) = localStorage h
  /\ forall turns, run (Done (hide h)) turns = ([], Some (hide h)).
Proof.
  split_and!; done.
Qed.

End WithJSON.

(** *** The statements above on a concrete page *)


Lemma snapshot_restored_only_for_owner_witness :
  (exists h,
     run (constructor demo_api demo_page demo_storage []) [] = ([], Some h)
     /\ playerPuzzles h = VArr demo_puzzles)
  /\ (exists h0 final,
        run (constructor other_api demo_page demo_storage []) [quiet (Resolved (VArr []))]
        = ([(GameAPI.getPlayerPuzzles other_api, h0)], Some final)
        /\ playerPuzzles h0 = VArr []
        /\ playerPuzzles final = VArr []).
Proof.
  assert (Htext : MiniJSON.stringify demo_snapshot <> "").
  { intros H. vm_compute in H. discriminate H. }
  assert (Hparse : JSON_parse (MiniJSON.stringify demo_snapshot) = Normal demo_snapshot).
  { vm_compute. reflexivity. }
  split.
  - destruct (snapshot_restored_only_for_owner demo_api demo_page demo_storage []
                (MiniJSON.stringify demo_snapshot) demo_snapshot "player_1_abc" demo_puzzles
                eq_refl Htext Hparse eq_refl eq_refl) as [Hsame _].
    destruct (Hsame eq_refl) as (h & Hrun & Hmem & _).
    exists h. split; [apply Hrun|exact Hmem].
  - destruct (snapshot_restored_only_for_owner other_api demo_page demo_storage []
                (MiniJSON.stringify demo_snapshot) demo_snapshot "player_1_abc" demo_puzzles
                eq_refl Htext Hparse eq_refl eq_refl) as [_ Hother].
    destruct Hother as (h0 & Hmem0 & _ & Hres & _); [discriminate|].
    destruct (Hres (VArr []) (fun h => h)) as (final & Hrun & Hmem & _).
    exists h0, final. split; [exact Hrun|]. split; [exact Hmem0|exact Hmem].
Defined.


(** The failed completion of C6 on the page above: the answer was correct,
    the completion call fails, and the page still shows the success. *)
Lemma completion_failure_demo :
  exists final,
    (run (checkAnswer demo_heap) [quiet (Resolved correct); quiet (Failed boom)]).2 = Some final
    /\ modalTitle (view final) = "chair"
    /\ submit_text (view final) = "다음"
    /\ submit_onclick (view final) = ContinueHandler VUndefined
    /\ console final = [ConsoleError "퍼즐 완료 처리 실패:" (Some boom)].
Proof. eexists. split; [reflexivity|]. done. Qed.

(** C7 as stated fails: after a completion call that failed, no refresh is
    awaited; list and snapshot are the old ones. *)
Lemma completion_failure_skips_refresh :
  run (completePuzzle (VStr "chair-puzzle") demo_heap)
      [quiet (Failed boom); quiet (Resolved (VArr []))]
  = ([(GameAPI.completePuzzle demo_api (VStr "chair-puzzle"), demo_heap)],
     Some (log (ConsoleError "퍼즐 완료 처리 실패:" (Some boom)) demo_heap))
  /\ calls (completePuzzle (VStr "chair-puzzle") demo_heap)
           [quiet (Failed boom); quiet (Resolved (VArr []))]
     = [GameAPI.completePuzzle demo_api (VStr "chair-puzzle")]
  /\ playerPuzzles (log (ConsoleError "퍼즐 완료 처리 실패:" (Some boom)) demo_heap)
     = VArr demo_puzzles.
Proof. split_and!; reflexivity. Qed.

End ManagerProps.

(* ===================================================================== *)
(** ** More about the native bridge *)
(* ===================================================================== *)

Module BridgeMore.
Import ApiBridge Tokens Counting Demo BridgeProps.

(** *** Tokens *)

Lemma digit_not_underscore x : pretty_N_char x <> "_"%char.
Proof. unfold pretty_N_char. repeat case_match; discriminate. Qed.

Lemma pretty_N_go_no_underscore x s : no_underscore s -> no_underscore (pretty_N_go x s).
Proof.
  revert s. induction (N.lt_wf_0 x) as [x _ IH]; intros s Hs.
  destruct (decide (x = 0)%N) as [->|Hx]; [by rewrite pretty_N_go_0|].
  rewrite pretty_N_go_step by lia. apply IH.
  - apply N.div_lt; lia.
  - intros [Hc|Hin]; [by apply digit_not_underscore in Hc|by apply Hs].
Qed.

Lemma pretty_N_no_underscore (x : N) : no_underscore (pretty x).
Proof.
  unfold pretty, pretty_N. case_decide as Hzero.
  - intros [Hc|[]]. discriminate Hc.
  - apply pretty_N_go_no_underscore. intros [].
Qed.

Lemma pretty_Z_no_underscore (x : Z) : no_underscore (pretty x).
Proof.
  destruct x as [|p|p]; unfold pretty, pretty_Z.
  - intros [H|[]]. discriminate H.
  - apply (pretty_N_no_underscore (N.pos p)).
  - intros [H|Hin]; [discriminate H|]. by apply (pretty_N_no_underscore (N.pos p)).
Qed.

Lemma no_underscore_app_absurd m d d' :
  no_underscore d -> d <> m +:+ "_" +:+ d'.
Proof.
  intros Hd ->. apply Hd. clear Hd.
  induction m as [|c m IH]; simpl; [by left|by right].
Qed.

(** The last underscore splits a token uniquely. *)
Lemma split_at_last_underscore m1 m2 d1 d2 :
  no_underscore d1 -> no_underscore d2 ->
  m1 +:+ "_" +:+ d1 = m2 +:+ "_" +:+ d2 -> m1 = m2 /\ d1 = d2.
Proof.
  intros H1 H2. revert m2. induction m1 as [|c m1 IH]; intros [|c' m2] Heq; simpl in Heq.
  - by injection Heq.
  - injection Heq as <- Heq. by destruct (no_underscore_app_absurd m2 d1 d2 H1).
  - injection Heq as -> Heq. by destruct (no_underscore_app_absurd m1 d2 d1 H2).
  - injection Heq as -> Heq. destruct (IH m2 Heq) as [-> ->]. done.
Qed.

(** X1. Two calls get the same callback token only if they name the same
    method and read the same clock value. *)
Theorem callback_name_inj (m1 m2 : string) (t1 t2 : Z) :
  callback_name m1 t1 = callback_name m2 t2 -> m1 = m2 /\ t1 = t2.
Proof.
  unfold callback_name. intros Heq.
  apply (inj (String.append "__native_callback_")) in Heq.
  apply split_at_last_underscore in Heq as [-> Ht]; try apply pretty_Z_no_underscore.
  split; [done|]. by apply (inj pretty).
Qed.

Lemma callback_name_inj_witness :
  "getGameInfo" = "getGameInfo" /\ 1700000000000%Z = 1700000000000%Z.
Proof. apply (callback_name_inj "getGameInfo" "getGameInfo" 1700000000000 1700000000000 eq_refl). Defined.

(** *** Replies *)

Section WithJSON.
Context {json : JSON}.

(** X2. The callback is one-shot: once the native side has replied on a
    name, a second reply on that name changes nothing. *)
Theorem second_reply_changes_nothing
    (bridge : option (gmap string member)) (evs : list event)
    (name : string) (r1 e1 r2 e2 : value) :
  let w := run (fresh bridge) evs in
  step (step w (NativeReply name r1 e1)) (NativeReply name r2 e2)
  = step w (NativeReply name r1 e1).
Proof.
  intros w. simpl.
  assert (Hc : consistent w) by apply consistent_run, consistent_fresh.
  unfold invoke_global at 2 3.
  destruct (globals w !! name) as [cb|] eqn:Hn.
  - destruct (native_callback_live w name cb r1 e1 Hc Hn) as (_ & Hg & _).
    unfold invoke_global. by rewrite Hg, lookup_delete_eq.
  - unfold invoke_global. by rewrite Hn.
Qed.

(** X3. In every world a page can reach, a property of the callback
    namespace is the callback of a call that is still in flight: it sits
    under its own token, its promise is pending, no [delete] has removed it
    yet, and no other name leads to the same promise. *)
Theorem namespace_holds_pending_calls_only
    (bridge : option (gmap string member)) (evs : list event)
    (name : string) (cb : callback) :
  let w := run (fresh bridge) evs in
  globals w !! name = Some cb ->
  cb_name cb = name
  /\ promises w !! cb_promise cb = Some Pending
  /\ times_removed cb w = 0
  /\ (forall name' cb', globals w !! name' = Some cb' ->
        cb_promise cb' = cb_promise cb -> name' = name).
Proof.
  intros w Hn.
  assert (Hc : consistent w) by apply consistent_run, consistent_fresh.
  destruct (live_ok w Hc name cb Hn) as (Hname & Hreg & Hpend).
  split_and!; try done.
  - destruct (reg_state w Hc cb Hreg) as [[_ H0]|[(s & Hs & Hne) _]]; [done|congruence].
  - intros name' cb' Hn' Heq.
    destruct (live_ok w Hc name' cb' Hn') as (Hname' & Hreg' & _).
    rewrite <- Hname, <- Hname'. f_equal. by apply (reg_inj w Hc).
Qed.

Lemma android_request methodName args now w :
  android (request methodName args now w).1 = android w.
Proof.
  unfold request. destruct (callable (android w) methodName) as [f|]; simpl; [|done].
  assert (Hall : forall replies w0, android (invoke_all replies w0) = android w0).
  { induction replies as [|[[n r] e] replies IH]; intros w0; [done|].
    unfold invoke_all. simpl. fold (invoke_all replies (invoke_global n r e w0)).
    by rewrite IH, android_invoke_global. }
  destruct (sync_throw _); simpl; [|by rewrite Hall].
  unfold delete_global, settle. repeat (case_match; simpl; try done); by rewrite Hall.
Qed.

Lemma android_step w ev : android (step w ev) = android w.
Proof. destruct ev; simpl; [apply android_request|apply android_invoke_global]. Qed.

Lemma android_run evs w : android (run w evs) = android w.
Proof.
  revert w. induction evs as [|ev evs IH]; intros w; [done|].
  unfold run. simpl. fold (run (step w ev) evs). by rewrite IH, android_step.
Qed.

Lemma native_calls_invoke_global name result error w :
  native_calls (invoke_global name result error w) = native_calls w.
Proof.
  unfold invoke_global, native_callback, delete_global, settle.
  repeat (case_match; simpl; try done).
Qed.

Lemma native_calls_step w ev :
  length (native_calls (step w ev)) = length (native_calls w) + attempts (android w) [ev].
Proof.
  destruct ev as [m args now|name result error]; simpl.
  - destruct (callable (android w) m) as [f|] eqn:Hf.
    + rewrite (request_callable w m args now f Hf). unfold attempts. simpl. rewrite Hf.
      destruct (sync_throw _);
        rewrite ?native_calls_finish, native_calls_invoke_all; simpl;
        rewrite length_app; simpl; lia.
    + unfold request, attempts. simpl. rewrite Hf. simpl. lia.
  - rewrite native_calls_invoke_global. unfold attempts. simpl. lia.
Qed.

Lemma attempts_cons bridge ev evs :
  attempts bridge (ev :: evs) = attempts bridge [ev] + attempts bridge evs.
Proof. unfold attempts. simpl. by destruct ev; [destruct (callable _ _)|]. Qed.

Lemma native_calls_run evs w :
  length (native_calls (run w evs)) = length (native_calls w) + attempts (android w) evs.
Proof.
  revert w. induction evs as [|ev evs IH]; intros w.
  - unfold attempts. simpl. lia.
  - unfold run. simpl. fold (run (step w ev) evs).
    rewrite IH, native_calls_step, android_step, (attempts_cons _ ev evs). lia.
Qed.


(** *** Two calls under one token *)

Lemma orphaned_invoke_global cb name result error w :
  consistent w -> orphaned cb w -> orphaned cb (invoke_global name result error w).
Proof.
  intros Hc (Hreg & Hpend & Hout). unfold invoke_global.
  destruct (globals w !! name) as [c|] eqn:Hn; [|done].
  destruct (native_callback_live w name c result error Hc Hn) as (_ & Hg & Hp & _ & Hr & _).
  destruct (live_ok w Hc name c Hn) as (Hname & Hregc & _).
  assert (Hne : c <> cb) by (intros ->; congruence).
  unfold orphaned. rewrite Hg, Hp, Hr. split_and!; [done|..].
  - rewrite list_lookup_insert_ne; [done|].
    intros Heq. apply Hne. by apply (reg_inj w Hc).
  - intros Hin. apply lookup_delete_Some in Hin as [_ Hin]. done.
Qed.

Lemma orphaned_invoke_all cb replies w :
  consistent w -> orphaned cb w -> orphaned cb (invoke_all replies w).
Proof.
  revert w. induction replies as [|[[n r] e] replies IH]; intros w Hc Ho; [done|].
  apply (IH (invoke_global n r e w)).
  - by apply consistent_invoke_global.
  - by apply orphaned_invoke_global.
Qed.

Lemma orphaned_finish cb name p s entry w :
  cb_promise cb <> p -> orphaned cb w ->
  orphaned cb (delete_global name (settle p s (log entry w))).
Proof.
  intros Hne (Hreg & Hpend & Hout). unfold orphaned.
  rewrite registered_finish, promises_delete_global.
  assert (Hpr : promises (settle p s (log entry w)) !! cb_promise cb = Some Pending).
  { unfold settle. simpl. case_match; [case_match|]; simpl; try done.
    by rewrite list_lookup_insert_ne. }
  assert (Hgl : globals (settle p s (log entry w)) = globals w).
  { unfold settle. simpl. by repeat case_match. }
  split_and!; [done..|].
  unfold delete_global. rewrite Hgl. destruct (globals w !! name) eqn:Hn; simpl.
  - intros Hin. apply lookup_delete_Some in Hin as [_ Hin]. done.
  - by rewrite Hgl.
Qed.

(** A request leaves a pending call orphaned if it was orphaned before or
    if the request takes its token. *)
Lemma request_orphans cb methodName args now w :
  consistent w -> cb ∈ registered w ->
  promises w !! cb_promise cb = Some Pending ->
  cb_name cb = callback_name methodName now \/ globals w !! cb_name cb <> Some cb ->
  is_Some (callable (android w) methodName) \/ globals w !! cb_name cb <> Some cb ->
  orphaned cb (request methodName args now w).1.
Proof.
  intros Hc Hreg Hpend Hwhy Hcan.
  assert (Hlt : cb_promise cb < length (promises w)) by by apply lookup_lt_Some in Hpend.
  destruct (callable (android w) methodName) as [f|] eqn:Hf.
  - rewrite (request_callable w methodName args now f Hf). simpl.
    set (name := callback_name methodName now).
    set (new := {| cb_method := methodName; cb_name := name;
                   cb_promise := length (promises w) |}).
    set (call := map final_arg args ++ [VStr name]).
    set (w3 := record_native_call methodName call _).
    destruct (consistent_register w methodName name Hc) as (Hc2 & _ & _).
    assert (Hc3 : consistent w3) by by eapply consistent_ext; [..|exact Hc2].
    assert (Ho3 : orphaned cb w3).
    { unfold orphaned. simpl.
      split_and!; [apply elem_of_app; by left|by rewrite lookup_app_l|].
      destruct (decide (name = cb_name cb)) as [Heq|Hne].
      - rewrite <- Heq, lookup_insert_eq. intros [= <-]. simpl in Hlt. lia.
      - rewrite lookup_insert_ne by done. destruct Hwhy as [Hw|Hw]; [by destruct Hne|done]. }
    pose proof (orphaned_invoke_all cb (sync_replies (f call)) w3 Hc3 Ho3) as Ho4.
    destruct (sync_throw (f call)) as [e|]; [|done].
    apply orphaned_finish; [lia|done].
  - unfold request. rewrite Hf. unfold orphaned. simpl.
    destruct Hcan as [[? [=]]|Hout].
    split_and!; [done|by rewrite lookup_app_l|done].
Qed.

Lemma orphaned_step cb w ev : consistent w -> orphaned cb w -> orphaned cb (step w ev).
Proof.
  intros Hc (Hreg & Hpend & Hout). destruct ev as [m args now|name result error]; simpl.
  - apply request_orphans; auto.
  - by apply orphaned_invoke_global.
Qed.

Lemma orphaned_run cb evs w : consistent w -> orphaned cb w -> orphaned cb (run w evs).
Proof.
  revert w. induction evs as [|ev evs IH]; intros w Hc Ho; [done|].
  apply IH; [by apply consistent_step|by apply orphaned_step].
Qed.

(** X5. Two requests for the same method at the same clock value share a
    token: if the first call is still in flight when the second is made,
    the second callback replaces the first, and whatever happens afterwards
    the first promise never settles. *)
Theorem same_token_call_never_settles
    (bridge : option (gmap string member)) (evs later : list event)
    (methodName : string) (args1 args2 : list value) (now : Z) :
  let w := run (fresh bridge) evs in
  let first := request methodName args1 now w in
  let second := request methodName args2 now first.1 in
  is_Some (callable bridge methodName) ->
  promises first.1 !! first.2 = Some Pending ->
  second.2 <> first.2
  /\ promises (run second.1 later) !! first.2 = Some Pending
  /\ forall name, globals (run second.1 later) !! name
                  <> Some {| cb_method := methodName;
                             cb_name := callback_name methodName now;
                             cb_promise := first.2 |}.
Proof.
  intros w first second Hcan Hpend.
  assert (Hc : consistent w) by apply consistent_run, consistent_fresh.
  assert (Hbridge : android w = bridge) by apply android_run.
  destruct (request_preserves w methodName args1 now Hc) as [Hc1 Hr1].
  fold first in Hc1, Hr1. rewrite Hbridge in Hr1. specialize (Hr1 Hcan).
  set (cb := {| cb_method := methodName; cb_name := callback_name methodName now;
                cb_promise := first.2 |}) in *.
  assert (Hcan1 : is_Some (callable (android first.1) methodName)).
  { unfold first. by rewrite android_request, Hbridge. }
  assert (Ho : orphaned cb second.1).
  { apply request_orphans; auto.
    rewrite Hr1. apply elem_of_app. right. apply list_elem_of_here. }
  destruct (request_preserves first.1 methodName args2 now Hc1) as [Hc2 _].
  fold second in Hc2.
  destruct (orphaned_run cb later second.1 Hc2 Ho) as (_ & Hstill & Hout).
  split_and!.
  - assert (second.2 = length (promises first.1)) as ->.
    { destruct Hcan1 as [f Hf]. unfold second.
      by rewrite (request_callable _ _ _ _ f Hf). }
    apply lookup_lt_Some in Hpend. simpl in Hpend. lia.
  - exact Hstill.
  - intros name Hin.
    assert (Hcl : consistent (run second.1 later)) by by apply consistent_run.
    destruct (live_ok _ Hcl name cb Hin) as (Hname & _). simpl in Hname.
    subst name. done.
Qed.

End WithJSON.

Lemma namespace_holds_pending_calls_only_witness :
  let w := run (fresh (Some demo_bridge)) [Request "getGameInfo" [] 1700000000000] in
  cb_name demo_callback = demo_token
  /\ promises w !! 0 = Some Pending
  /\ times_removed demo_callback w = 0.
Proof.
  destruct (namespace_holds_pending_calls_only (Some demo_bridge)
              [Request "getGameInfo" [] 1700000000000] demo_token demo_callback)
    as (H1 & H2 & H3 & _).
  - by vm_compute.
  - split; [exact H1|]. split; [exact H2|exact H3].
Defined.

Lemma same_token_call_never_settles_witness :
  let w := fresh (Some demo_bridge) in
  let first := request "getGameInfo" [] 1700000000000 w in
  let second := request "getGameInfo" [VNum 1] 1700000000000 first.1 in
  let reply := NativeReply demo_token (VStr "for the first call") VNull in
  promises (run second.1 [reply; reply]) !! first.2 = Some Pending
  /\ promises (run second.1 [reply; reply]) !! second.2
     = Some (Fulfilled (VStr "for the first call")).
Proof.
  intros w first second reply.
  destruct (same_token_call_never_settles (Some demo_bridge) [] [reply; reply]
              "getGameInfo" [] [VNum 1] 1700000000000) as (_ & Hfirst & _).
  - exists (fun _ => replies_later). by vm_compute.
  - by vm_compute.
  - split; [exact Hfirst|]. by vm_compute.
Defined.

End BridgeMore.

(* ===================================================================== *)
(** ** More about the request router *)
(* ===================================================================== *)

Module RouterMore.
Import GameAPI Encoding Demo.

(** *** The player identifier *)

(** X6. The identifier [generatePlayerId] returns is not empty and is what
    the storage holds afterwards; a later call returns the same identifier
    and leaves the storage alone, whatever the clock and the random suffix
    are by then.  No other key of the storage is touched. *)
Theorem generatePlayerId_is_stable
    (now now' : Z) (suffix suffix' : string) (localStorage : gmap string string) :
  let r := generatePlayerId now suffix localStorage in
  r.1 <> ""
  /\ r.2 !! "playerId" = Some r.1
  /\ generatePlayerId now' suffix' r.2 = r
  /\ (forall key, key <> "playerId" -> r.2 !! key = localStorage !! key).
Proof.
  unfold generatePlayerId.
  destruct (localStorage !! "playerId") as [stored|] eqn:Hs;
    [destruct (String.eqb stored "") eqn:He|]; simpl.
  - rewrite lookup_insert_eq. simpl. split_and!; try done.
    intros key Hk. by rewrite lookup_insert_ne.
  - rewrite Hs, He. split_and!; try done.
    apply String.eqb_neq in He. done.
  - rewrite lookup_insert_eq. simpl. split_and!; try done.
    intros key Hk. by rewrite lookup_insert_ne.
Qed.

(** *** Options of an HTTP request *)

Lemma assoc_set_key_eq key v fields : assoc key (set_key key v fields) = v.
Proof.
  induction fields as [|[k old] rest IH]; simpl.
  - by rewrite String.eqb_refl.
  - destruct (String.eqb k key) eqn:E; simpl; rewrite E; [done|exact IH].
Qed.

Lemma assoc_set_key_ne key key' v fields :
  key <> key' -> assoc key' (set_key key v fields) = assoc key' fields.
Proof.
  intros Hne. induction fields as [|[k old] rest IH]; simpl.
  - apply String.eqb_neq in Hne. by rewrite Hne.
  - destruct (String.eqb k key) eqn:E; simpl.
    + apply String.eqb_eq in E. subst k.
      apply String.eqb_neq in Hne. by rewrite Hne.
    + by rewrite IH.
Qed.

Lemma assoc_app key l1 l2 :
  assoc key (l1 ++ l2) = if has_key key l1 then assoc key l1 else assoc key l2.
Proof.
  induction l1 as [|[k v] l1 IH]; simpl; [done|].
  destruct (String.eqb k key); simpl; [done|exact IH].
Qed.

Lemma has_key_app key l1 l2 : has_key key (l1 ++ l2) = has_key key l1 || has_key key l2.
Proof.
  induction l1 as [|[k v] l1 IH]; simpl; [done|].
  rewrite IH. by destruct (String.eqb k key).
Qed.

Lemma has_key_rev key l : has_key key (rev l) = has_key key l.
Proof.
  induction l as [|[k v] l IH]; simpl; [done|].
  rewrite has_key_app, IH. simpl. by destruct (has_key key l), (String.eqb k key).
Qed.

Lemma spread_lookup_helper (key : string) (base extra : list (string * value)) :
  assoc key (spread base extra)
  = if has_key key extra then assoc key (rev extra) else assoc key base.
Proof.
  unfold spread. revert base.
  induction extra as [|[k v] extra IH]; intros base; simpl; [done|].
  rewrite IH, assoc_app, has_key_rev. simpl.
  destruct (has_key key extra); [by rewrite orb_true_r|].
  rewrite orb_false_r. destruct (String.eqb k key) eqn:E.
  - apply String.eqb_eq in E. subst k. apply assoc_set_key_eq.
  - apply String.eqb_neq in E. by apply assoc_set_key_ne.
Qed.

Section WithJSON.
Context {json : JSON}.

(** X7. What [fetch] is given on the HTTP path: each option as the caller
    passed it, the JSON content type as [headers] unless the caller passed
    headers of its own, and the body replaced by its JSON text when it is
    truthy -- a body that is falsy (absent, [null], zero, the empty string)
    is handed on as it is. *)
Theorem http_options_merge (api : t) (req : api_request) (key : string) :
  useBridge api = false ->
  exists options k,
    request api req = ViaFetch (baseURL api +:+ fetchUrl req) options k
    /\ let given :=
         if has_key key (fetchOptions req) then assoc key (rev (fetchOptions req))
         else if String.eqb key "headers"
              then VObj [("Content-Type", VStr "application/json")]
              else VUndefined in
       assoc key options
       = if String.eqb key "body" && to_boolean given
         then VStr (JSON_stringify given) else given.
Proof.
  intros Hweb. unfold request. rewrite Hweb. eexists _, _. split; [reflexivity|].
  set (merged := spread _ _).
  assert (Hm : forall key', assoc key' merged
            = if has_key key' (fetchOptions req) then assoc key' (rev (fetchOptions req))
              else if String.eqb key' "headers"
                   then VObj [("Content-Type", VStr "application/json")]
                   else VUndefined).
  { intros key'. unfold merged. rewrite spread_lookup_helper.
    change (assoc key' [("headers", VObj [("Content-Type", VStr "application/json")])])
      with (if String.eqb "headers" key'
            then VObj [("Content-Type", VStr "application/json")] else VUndefined).
    by rewrite (String.eqb_sym "headers" key'). }
  cbv zeta. rewrite <- (Hm key).
  destruct (String.eqb key "body") eqn:E; simpl.
  - apply String.eqb_eq in E. subst key.
    destruct (to_boolean (assoc "body" merged)); [|done].
    apply assoc_set_key_eq.
  - apply String.eqb_neq in E.
    destruct (to_boolean (assoc "body" merged)); [|done].
    apply assoc_set_key_ne. congruence.
Qed.

(** X8. On the HTTP path every rejection is logged once, with the very
    error the caller gets, and a success logs nothing.  A network failure
    is passed on unchanged, and a success status whose body is no JSON
    rejects with the parser's error. *)
Theorem http_failures_logged_and_passed_on (result : fetch_result) :
  (http_settle result).2
  = match (http_settle result).1 with
    | Failed e => [ConsoleError "API 요청 실패:" (Some e)]
    | Resolved _ => []
    end
  /\ (forall e, result = NetworkError e -> (http_settle result).1 = Failed e)
  /\ (forall r e, result = Responded r -> ok r = true -> JSON_parse (body r) = Throw e ->
        (http_settle result).1 = Failed e).
Proof.
  split_and!.
  - destruct result as [e|r]; simpl; [done|].
    destruct (negb (ok r)); [done|]. by destruct (JSON_parse (body r)).
  - by intros e ->.
  - intros r e -> Hok Hparse. simpl. by rewrite Hok, Hparse.
Qed.


End WithJSON.

(** *** The query string of [completePuzzle] *)

Lemma hex_digit_safe (n : nat) : (n < 16)%nat -> form_safe (hex_digit n) = true.
Proof.
  intros Hn. do 16 (destruct n as [|n]; [reflexivity|]). lia.
Qed.

Lemma form_urlencode_encoded s : encoded (form_urlencode s).
Proof.
  unfold encoded. induction s as [|a s IH]; [done|].
  assert (Hlt : (nat_of_ascii a < 256)%nat) by apply nat_ascii_bounded.
  assert (Hhex : forall n : nat, (n < 16)%nat -> encoded_char (hex_digit n) = true).
  { intros n Hn. unfold encoded_char. by rewrite hex_digit_safe. }
  cbn [form_urlencode]. cbv zeta.
  destruct (form_safe a) eqn:Hsafe.
  - cbn [list_ascii_of_string forallb]. unfold encoded_char at 1. by rewrite Hsafe, IH.
  - destruct (nat_of_ascii a =? 32)%nat.
    + cbn [list_ascii_of_string forallb]. by rewrite IH.
    + cbn [list_ascii_of_string forallb]. rewrite IH, !Hhex; [done|..].
      * apply Nat.mod_upper_bound. lia.
      * apply Nat.Div0.div_lt_upper_bound. lia.
Qed.

Lemma encoded_free_of s a : encoded s -> encoded_char a = false -> ~ In a (list_ascii_of_string s).
Proof.
  unfold encoded. intros Hs Ha Hin.
  rewrite forallb_forall in Hs. apply Hs in Hin. congruence.
Qed.

(** X10. The address [completePuzzle] fetches has exactly the two
    parameters [playerId] and [puzzleId], whatever the identifiers
    contain: their values are form-urlencoded, so neither holds an
    ampersand, an equals sign, a question mark, a hash, a slash or a
    space. *)
Theorem completePuzzle_query_has_two_parameters (api : t) (puzzleId : value) :
  exists player puzzle,
    fetchUrl (completePuzzle api puzzleId)
    = "/game/complete-puzzle?playerId=" +:+ player +:+ "&puzzleId=" +:+ puzzle
    /\ player = form_urlencode (playerId api)
    /\ puzzle = form_urlencode (to_string puzzleId)
    /\ forall c, In c ["&"%char; "="%char; "?"%char; "#"%char; "/"%char; " "%char] ->
         ~ In c (list_ascii_of_string player) /\ ~ In c (list_ascii_of_string puzzle).
Proof.
  eexists _, _. split_and!; [reflexivity..|].
  intros c Hc. assert (Hbad : encoded_char c = false).
  { simpl in Hc. by repeat (destruct Hc as [<-|Hc]; [reflexivity|]). }
  split; apply encoded_free_of; auto using form_urlencode_encoded.
Qed.

Lemma http_options_merge_witness :
  let body := VObj [("playerId", VStr "player_1_abc"); ("puzzleId", VNum 7);
                    ("answer", VStr "cat")] in
  exists options k,
    request web_api (submitPuzzleAnswer web_api (VNum 7) (VStr "cat"))
    = ViaFetch "http://localhost:8080/api/puzzle/submit" options k
    /\ assoc "body" options = VStr (MiniJSON.stringify body).
Proof.
  destruct (http_options_merge web_api (submitPuzzleAnswer web_api (VNum 7) (VStr "cat"))
              "body" eq_refl) as (options & k & Hreq & Hbody).
  exists options, k. split; [exact Hreq|exact Hbody].
Defined.


End RouterMore.

(* ===================================================================== *)
(** ** More about the puzzle manager *)
(* ===================================================================== *)

Module ManagerMore.
Import PuzzleManager PuzzleSession Demo DemoMore.

Section WithJSON.
Context {json : JSON} {strings : Strings}.

(** *** Starting up *)

Lemma strict_eq_string_true v s : strict_eq_string v s = true <-> v = VStr s.
Proof.
  destruct v; simpl; try (split; [discriminate|discriminate]).
  rewrite String.eqb_eq. split; congruence.
Qed.

Lemma is_array_true v : is_array v = true <-> exists items, v = VArr items.
Proof.
  destruct v; simpl; split; try discriminate; try (intros [? [=]]); eauto.
Qed.

(** When the [try] block of [initializePuzzles] restores. *)
Lemma restore_restores text h r :
  restore text h = Normal (r, false) <->
  exists saved puzzles,
    JSON_parse text = Normal saved
    /\ get "playerId" saved = Normal (VStr (GameAPI.getPlayerId (gameAPI h)))
    /\ get "puzzles" saved = Normal (VArr puzzles)
    /\ r = log (ConsoleLog "localStorage에서 진행 상황을 복원했습니다." None)
               (set_playerPuzzles (VArr puzzles) h).
Proof.
  unfold restore. split.
  - destruct (JSON_parse text) as [saved|] eqn:Hp; [|discriminate].
    destruct (get "playerId" saved) as [owner|] eqn:Hg; [|discriminate].
    destruct (strict_eq_string owner _) eqn:Ho; [|discriminate].
    apply strict_eq_string_true in Ho. subst owner.
    destruct (get "puzzles" saved) as [puzzles|] eqn:Hz; [|discriminate].
    destruct (is_array puzzles) eqn:Ha; [|discriminate].
    apply is_array_true in Ha as [items ->]. intros [= <-]. by exists saved, items.
  - intros (saved & puzzles & -> & -> & -> & ->). simpl.
    by rewrite String.eqb_refl.
Qed.

Lemma restore_otherwise text h r : restore text h = Normal (r, true) -> r = h.
Proof.
  unfold restore. repeat case_match; congruence.
Qed.

(** X11. The constructor leaves the server alone in one case only: the
    storage holds a non-empty text that parses to a snapshot whose
    [playerId] is the current identifier and whose [puzzles] is an array;
    then it holds that array.  In every other case it starts with the empty
    list and fetches the puzzles of the current player. *)
Theorem constructor_restores_iff_own_snapshot
    (api : GameAPI.t) (page : ui) (storage : gmap string string) (log0 : list log_entry) :
  let t := constructor api page storage log0 in
  ((exists h, t = Done h) <->
   (exists text saved puzzles,
      storage !! "playerPuzzles" = Some text /\ text <> ""
      /\ JSON_parse text = Normal saved
      /\ get "playerId" saved = Normal (VStr (GameAPI.getPlayerId api))
      /\ get "puzzles" saved = Normal (VArr puzzles)))
  /\ (forall h, t = Done h -> exists puzzles,
        playerPuzzles h = VArr puzzles
        /\ (exists text saved, storage !! "playerPuzzles" = Some text
              /\ JSON_parse text = Normal saved
              /\ get "puzzles" saved = Normal (VArr puzzles))
        /\ localStorage h = storage)
  /\ ((forall h, t <> Done h) ->
      exists h0 k, t = Await (GameAPI.getPlayerPuzzles api) h0 k
                   /\ playerPuzzles h0 = VArr [] /\ gameAPI h0 = api).
Proof.
  intros t. subst t. unfold constructor, initializePuzzles. simpl.
  set (h := {| gameAPI := api; currentPuzzleId := VNull; playerPuzzles := VArr [];
               view := page; localStorage := storage; console := log0 |}).
  destruct (storage !! "playerPuzzles") as [text|] eqn:Hs.
  2: { split_and!.
       - split; [intros [? [=]]|intros (? & ? & ? & [=] & _)].
       - intros ? [=].
       - intros _. by eexists _, _. }
  destruct (String.eqb text "") eqn:He.
  { apply String.eqb_eq in He. subst text. split_and!.
    - split; [intros [? [=]]|]. by intros (? & ? & ? & [= <-] & ? & _).
    - intros ? [=].
    - intros _. by eexists _, _. }
  apply String.eqb_neq in He.
  destruct (restore text h) as [[r fetch]|e] eqn:Hr.
  - destruct fetch.
    + apply restore_otherwise in Hr as Hrh. subst r. split_and!.
      * split; [intros [? [=]]|].
        intros (text' & saved & puzzles & [= <-] & _ & Hp & Ho & Ha).
        assert (Hyes : restore text h
                       = Normal (log (ConsoleLog "localStorage에서 진행 상황을 복원했습니다." None)
                                     (set_playerPuzzles (VArr puzzles) h), false)).
        { apply restore_restores. by exists saved, puzzles. }
        congruence.
      * intros ? [=].
      * intros _. by eexists _, _.
    + apply restore_restores in Hr as (saved & puzzles & Hp & Ho & Ha & ->). split_and!.
      * split; [intros _|by eexists]. by exists text, saved, puzzles.
      * intros h' [= <-]. exists puzzles. split_and!; [done| |done].
        by exists text, saved.
      * intros Hno. by destruct (Hno _ eq_refl).
  - split_and!.
    + split; [intros [? [=]]|].
      intros (text' & saved & puzzles & [= <-] & _ & Hp & Ho & Ha).
      assert (Hyes : restore text h
                     = Normal (log (ConsoleLog "localStorage에서 진행 상황을 복원했습니다." None)
                                   (set_playerPuzzles (VArr puzzles) h), false)).
      { apply restore_restores. by exists saved, puzzles. }
      congruence.
    + intros ? [=].
    + intros _. by eexists _, _.
Qed.

(** X12. A stored text that does not parse, or that parses to [null] or
    [undefined], is taken for corrupt: the constructor logs the error,
    removes the text from the storage and fetches the puzzles.  If that
    fetch fails as well, no snapshot is left in the storage. *)
Theorem corrupt_snapshot_is_removed
    (api : GameAPI.t) (page : ui) (storage : gmap string string) (log0 : list log_entry)
    (text : string) (e failure : value) :
  storage !! "playerPuzzles" = Some text ->
  text <> "" ->
  JSON_parse text = Throw e
  \/ (exists saved, JSON_parse text = Normal saved /\ get "playerId" saved = Throw e) ->
  exists h0 final,
    run (constructor api page storage log0) [quiet (Failed failure)]
    = ([(GameAPI.getPlayerPuzzles api, h0)], Some final)
    /\ localStorage h0 = delete "playerPuzzles" storage
    /\ playerPuzzles h0 = VArr []
    /\ In (ConsoleError "localStorage 데이터 파싱 실패:" (Some e)) (console h0)
    /\ localStorage final !! "playerPuzzles" = None
    /\ playerPuzzles final = VArr [].
Proof.
  intros Hs Hne Hbad. apply String.eqb_neq in Hne.
  unfold constructor, initializePuzzles. simpl. rewrite Hs, Hne.
  assert (Hr : restore text
                 {| gameAPI := api; currentPuzzleId := VNull; playerPuzzles := VArr [];
                    view := page; localStorage := storage; console := log0 |} = Throw e).
  { unfold restore. destruct Hbad as [->|(saved & -> & ->)]; done. }
  rewrite Hr. eexists _, _. split; [reflexivity|]. simpl.
  split_and!; try done.
  - apply in_or_app. left. apply in_or_app. right. by left.
  - apply lookup_delete_eq.
Qed.

(** X13. What a successful load persisted is what the next start finds:
    if the fetched value is an array, a manager constructed afterwards for
    the same player on that storage holds the same array and asks the
    server nothing; if it is not an array, the snapshot is of no use and the
    next start fetches again.  The JSON text of the snapshot is taken to
    parse back to the snapshot. *)
Theorem persisted_snapshot_round_trip
    (h : heap) (fetched : value) (meanwhile : heap -> heap) (page : ui)
    (log0 : list log_entry) :
  let api := gameAPI (meanwhile h) in
  let snapshot := VObj [("playerId", VStr (GameAPI.getPlayerId api)); ("puzzles", fetched)] in
  JSON_stringify snapshot <> "" ->
  JSON_parse (JSON_stringify snapshot) = Normal snapshot ->
  exists final,
    run (loadPlayerPuzzles h) [(Resolved fetched, meanwhile)]
    = ([(GameAPI.getPlayerPuzzles (gameAPI h), h)], Some final)
    /\ gameAPI final = api
    /\ if is_array fetched
       then exists restored,
              (forall turns,
                 run (constructor api page (localStorage final) log0) turns
                 = ([], Some restored))
              /\ playerPuzzles restored = fetched
       else exists h0 k,
              constructor api page (localStorage final) log0
              = Await (GameAPI.getPlayerPuzzles api) h0 k
              /\ playerPuzzles h0 = VArr [].
Proof.
  intros api snapshot Hne Hparse. apply String.eqb_neq in Hne.
  eexists. split; [reflexivity|]. split; [reflexivity|].
  unfold constructor, initializePuzzles. simpl.
  rewrite lookup_insert_eq. fold api. fold snapshot. rewrite Hne.
  unfold restore. rewrite Hparse. simpl. rewrite String.eqb_refl.
  destruct (is_array fetched) eqn:Ha.
  - eexists. split; [intros turns; reflexivity|done].
  - by eexists _, _.
Qed.

(** X14. Resetting the player makes a persisted snapshot useless without
    deleting it: [resetPlayerId] leaves the stored puzzles where they are,
    and a manager constructed for the new identifier does not load them but
    fetches the new player's puzzles. *)
Theorem reset_invalidates_snapshot
    (api : GameAPI.t) (now : Z) (suffix : string) (page : ui)
    (storage : gmap string string) (log0 : list log_entry)
    (text : string) (saved : value) (owner : string) :
  storage !! "playerPuzzles" = Some text ->
  JSON_parse text = Normal saved ->
  get "playerId" saved = Normal (VStr owner) ->
  owner <> "player_" +:+ pretty now +:+ "_" +:+ suffix ->
  let r := GameAPI.resetPlayerId now suffix api storage in
  GameAPI.playerId r.1 = "player_" +:+ pretty now +:+ "_" +:+ suffix
  /\ r.2 !! "playerId" = Some (GameAPI.playerId r.1)
  /\ r.2 !! "playerPuzzles" = Some text
  /\ exists h0 k,
       constructor r.1 page r.2 log0 = Await (GameAPI.getPlayerPuzzles r.1) h0 k
       /\ playerPuzzles h0 = VArr []
       /\ localStorage h0 !! "playerPuzzles" = Some text.
Proof.
  intros Hs Hparse Howner Hnew r.
  assert (Hr : r = ({| GameAPI.useBridge := GameAPI.useBridge api;
                       GameAPI.baseURL := GameAPI.baseURL api;
                       GameAPI.playerId := "player_" +:+ pretty now +:+ "_" +:+ suffix |},
                    <["playerId" := "player_" +:+ pretty now +:+ "_" +:+ suffix]>
                      (delete "playerId" storage))).
  { subst r. unfold GameAPI.resetPlayerId, GameAPI.generatePlayerId.
    by rewrite lookup_delete_eq. }
  rewrite Hr. simpl.
  assert (Hkept : (<["playerId" := "player_" +:+ pretty now +:+ "_" +:+ suffix]>
                     (delete "playerId" storage) : gmap string string) !! "playerPuzzles"
                  = Some text).
  { rewrite lookup_insert_ne by done. by rewrite lookup_delete_ne. }
  split_and!; [done|apply lookup_insert_eq|exact Hkept|].
  unfold constructor, initializePuzzles. simpl. rewrite Hkept.
  destruct (String.eqb text "") eqn:He; [by eexists _, _|].
  unfold restore. rewrite Hparse, Howner. simpl.
  apply String.eqb_neq in Hnew. rewrite Hnew. by eexists _, _.
Qed.

(** *** Answering *)

(** X15. A response whose [success] is falsy is a wrong answer: nothing
    but the submission is sent, the puzzle stays current, its question
    stays on the page, the feedback line shows the message of the response
    (a standard text when it has none) and the input is emptied. *)
Theorem wrong_answer_keeps_session
    (h : heap) (response success : value) (meanwhile : heap -> heap) (later : list turn) :
  to_boolean (currentPuzzleId h) = true ->
  get "success" response = Normal success ->
  to_boolean success = false ->
  let h1 := meanwhile h in
  let message := prop "message" response in
  exists call final,
    run (checkAnswer h) ((Resolved response, meanwhile) :: later) = ([(call, h)], Some final)
    /\ currentPuzzleId final = currentPuzzleId h1
    /\ playerPuzzles final = playerPuzzles h1
    /\ localStorage final = localStorage h1
    /\ puzzleContent (view final) = puzzleContent (view h1)
    /\ submit_onclick (view final) = submit_onclick (view h1)
    /\ input_value (view final) = ""
    /\ feedback (view final)
       = Some ("❌ " +:+ to_string (if to_boolean message then message
                                   else VStr "정답이 아닙니다."), "#ff6b6b").
Proof.
  intros Hcur Hget Hno h1 message.
  unfold checkAnswer. rewrite Hcur. simpl. rewrite Hget, Hno.
  eexists _, _. split; [reflexivity|]. done.
Qed.

(** X16. A response that is [null] or [undefined] makes the read of
    [success] throw: the error view is shown, no completion is asked for,
    and the puzzle is still the current one. *)
Theorem unreadable_response_shows_error
    (h : heap) (response e : value) (meanwhile : heap -> heap) (later : list turn) :
  to_boolean (currentPuzzleId h) = true ->
  get "success" response = Throw e ->
  exists call final,
    run (checkAnswer h) ((Resolved response, meanwhile) :: later) = ([(call, h)], Some final)
    /\ (response = VNull \/ response = VUndefined)
    /\ error_view (view final)
    /\ currentPuzzleId final = currentPuzzleId (meanwhile h)
    /\ In (ConsoleError "정답 확인 실패:" (Some e)) (console final).
Proof.
  intros Hcur Hget. unfold checkAnswer. rewrite Hcur. simpl. rewrite Hget.
  eexists _, _. split; [reflexivity|]. split_and!; try done.
  - destruct response; simpl in Hget; try discriminate; auto.
  - simpl. apply in_or_app. right. by left.
Qed.

(** X17. [checkAnswer] reads the current puzzle a second time after the
    submission has come back.  If the modal was dismissed in between, a
    correct answer is followed by a completion call that names [null]
    instead of the puzzle that was answered. *)
Theorem dismissed_answer_completes_null
    (h : heap) (response success : value) (o2 o3 : outcome) (m2 m3 : heap -> heap) :
  to_boolean (currentPuzzleId h) = true ->
  get "success" response = Normal success ->
  to_boolean success = true ->
  exists submitted later,
    calls (checkAnswer h) [(Resolved response, hide); (o2, m2); (o3, m3)]
    = submitted :: GameAPI.completePuzzle (gameAPI h) VNull :: later
    /\ GameAPI.bridgeArgs submitted
       = [VObj [("playerId", VStr (GameAPI.playerId (gameAPI h)));
                ("puzzleId", currentPuzzleId h);
                ("answer", VStr (trim (toLowerCase (input_value (view h)))))]]
    /\ GameAPI.bridgeArgs (GameAPI.completePuzzle (gameAPI h) VNull)
       = [VStr (GameAPI.playerId (gameAPI h)); VNull].
Proof.
  intros Hcur Hget Hyes. unfold calls, checkAnswer. rewrite Hcur. simpl.
  rewrite Hget, Hyes. simpl.
  destruct o2 as [v2|e2]; simpl; [destruct o3 as [v3|e3]; simpl|];
    eexists _, _; (split; [reflexivity|done]).
Qed.

End WithJSON.

(** *** Opening a puzzle *)

Section WithDOM.
Context {json : JSON} {dom : DOM} {strings : Strings}.

(** X18. [show] asks the server only when the list in memory is empty, and
    then once: with a list that has an element it awaits nothing; with the
    empty list it awaits one fetch and looks the puzzle up in what memory
    holds after it, whether the fetch succeeded or not. *)
Theorem show_fetches_only_when_empty (puzzleId : value) (h : heap) :
  (forall first rest, playerPuzzles h = VArr (first :: rest) ->
     forall turns, run (show puzzleId h) turns = ([], Some (show_found puzzleId h).1))
  /\ (playerPuzzles h = VArr [] ->
      forall o meanwhile later, exists loaded,
        run (show puzzleId h) ((o, meanwhile) :: later)
        = ([(GameAPI.getPlayerPuzzles (gameAPI h), h)], Some (show_found puzzleId loaded).1)
        /\ (forall fetched, o = Resolved fetched -> playerPuzzles loaded = fetched)
        /\ (forall e, o = Failed e ->
              playerPuzzles loaded = playerPuzzles (meanwhile h)
              /\ currentPuzzleId loaded = currentPuzzleId (meanwhile h))).
Proof.
  split.
  - intros first rest Hp turns. unfold show. by rewrite Hp.
  - intros Hp o meanwhile later. unfold show. rewrite Hp. simpl.
    destruct o as [fetched|e]; simpl; eexists; (split; [reflexivity|]);
      split; intros ? [=]; subst; done.
Qed.

(** X19. Looking a puzzle up never touches the player, the puzzle list or
    the storage, and always ends with the modal shown.  The current puzzle
    changes only when the record was found, is not locked and is not
    completed, and then it becomes the puzzle asked for: a locked, a
    completed or an unknown puzzle is never made current. *)
Theorem show_opens_only_unlocked_uncompleted (puzzleId : value) (h : heap) :
  let h' := (show_found puzzleId h).1 in
  gameAPI h' = gameAPI h
  /\ playerPuzzles h' = playerPuzzles h
  /\ localStorage h' = localStorage h
  /\ modal_shown (view h') = true
  /\ (currentPuzzleId h' = currentPuzzleId h
      \/ (currentPuzzleId h' = puzzleId
          /\ exists puzzle,
               find puzzleId (playerPuzzles h) = Normal puzzle
               /\ to_boolean puzzle = true
               /\ to_boolean (prop "isLocked" puzzle) = false
               /\ to_boolean (prop "isCompleted" puzzle) = false)).
Proof.
  unfold show_found.
  destruct (find puzzleId (playerPuzzles h)) as [puzzle|e] eqn:Hfind; [|simpl; auto 10].
  destruct (to_boolean puzzle) eqn:Hp; simpl; [|auto 10].
  destruct (to_boolean (prop "isLocked" puzzle)) eqn:Hl; simpl; [auto 10|].
  destruct (to_boolean (prop "isCompleted" puzzle)) eqn:Hc; simpl; [auto 10|].
  assert (Hopen : exists puzzle0,
             Normal puzzle = Normal puzzle0 /\ to_boolean puzzle0 = true
             /\ to_boolean (prop "isLocked" puzzle0) = false
             /\ to_boolean (prop "isCompleted" puzzle0) = false) by eauto.
  destruct (strict_eq (prop "type" puzzle) (VStr "info")); simpl; [auto 10|].
  destruct (startsWith "html-" (prop "type" puzzle)) as [[|]|e]; simpl; auto 10.
Qed.

(** X20. A list in memory that is not an array -- the server answered
    [null], an object, a number -- makes every later [show] end in the
    error view without asking the server again and without making any
    puzzle current. *)
Theorem show_on_unusable_list_fails (puzzleId : value) (h : heap) :
  is_array (playerPuzzles h) = false ->
  length_is_zero (playerPuzzles h) <> Normal true ->
  forall turns, exists final,
    run (show puzzleId h) turns = ([], Some final)
    /\ error_view (view final)
    /\ puzzleContent (view final) = paragraph "퍼즐을 불러오는데 실패했습니다."
    /\ currentPuzzleId final = currentPuzzleId h
    /\ playerPuzzles final = playerPuzzles h.
Proof.
  intros Harr Hlen turns. unfold show, show_found.
  destruct (playerPuzzles h) as [| | | | | s |items|fields|name msg] eqn:Hp;
    simpl in *; try discriminate;
    try (eexists; split; [reflexivity|done]).
  - destruct (String.eqb s ""); [done|]. eexists; split; [reflexivity|].
    simpl. by rewrite Hp.
  - destruct (strict_eq _ _); [done|]. eexists; split; [reflexivity|].
    simpl. by rewrite Hp.
Qed.

(** X21. When the list is empty and the fetch fails, [show] goes on with
    the lookup: the load error on the page is replaced by the message that
    the puzzle was not found, and no puzzle becomes current. *)
Theorem show_after_failed_load_reports_not_found (puzzleId : value) (h : heap) (e : value) :
  playerPuzzles h = VArr [] ->
  exists final,
    run (show puzzleId h) [quiet (Failed e)]
    = ([(GameAPI.getPlayerPuzzles (gameAPI h), h)], Some final)
    /\ error_view (view final)
    /\ puzzleContent (view final) = paragraph "퍼즐을 찾을 수 없습니다."
    /\ currentPuzzleId final = currentPuzzleId h
    /\ In (ConsoleError "퍼즐 데이터 로드 실패:" (Some e)) (console final).
Proof.
  intros Hp. unfold show. rewrite Hp. simpl. unfold show_found. simpl. rewrite Hp. simpl.
  eexists. split; [reflexivity|]. split_and!; try done.
  simpl. apply in_or_app. right. by left.
Qed.

(** X22. A record that is open for play but whose [type] is not a string
    makes [show] throw after it has made the puzzle current: the error view
    is shown, yet the puzzle stays current. *)
Theorem show_record_without_type (puzzleId puzzle : value) (h : heap) :
  find puzzleId (playerPuzzles h) = Normal puzzle ->
  to_boolean puzzle = true ->
  to_boolean (prop "isLocked" puzzle) = false ->
  to_boolean (prop "isCompleted" puzzle) = false ->
  (forall s, prop "type" puzzle <> VStr s) ->
  let h' := (show_found puzzleId h).1 in
  error_view (view h')
  /\ currentPuzzleId h' = puzzleId
  /\ (show_found puzzleId h).2 = None.
Proof.
  intros Hfind Hp Hl Hc Hty. unfold show_found. rewrite Hfind, Hp, Hl, Hc. simpl.
  destruct (prop "type" puzzle) as [| | | | | s | | | ]; simpl; try done.
  by destruct (Hty s).
Qed.

(** X23. Opening a puzzle leaves the button as the last view left it: its
    label and its [onclick] handler are not reset.  After a solved puzzle,
    whose view put the continuation handler there, a click on the button of
    the next puzzle opened dismisses that puzzle and plays the scene of
    the old one. *)
Theorem show_keeps_stale_button (puzzleId puzzle : value) (h : heap) (kind : string)
    (nextScene : value) :
  find puzzleId (playerPuzzles (hide h)) = Normal puzzle ->
  to_boolean puzzle = true ->
  to_boolean (prop "isLocked" puzzle) = false ->
  to_boolean (prop "isCompleted" puzzle) = false ->
  prop "type" puzzle = VStr kind ->
  submit_onclick (view h) = ContinueHandler nextScene ->
  to_boolean nextScene = true ->
  let h' := (show_found puzzleId (hide h)).1 in
  currentPuzzleId h' = puzzleId
  /\ submit_text (view h') = submit_text (view h)
  /\ submit_onclick (view h') = ContinueHandler nextScene
  /\ idle (click_handler (submit_onclick (view h')) h')
  /\ In (ConsoleLog ("다음 장면 처리: " +:+ to_string nextScene) None)
        (console (click_handler (submit_onclick (view h')) h')).
Proof.
  intros Hfind Hp Hl Hc Hty Hclick Hscene.
  unfold show_found. rewrite Hfind, Hp, Hl, Hc, Hty. simpl.
  destruct (String.eqb kind "info"); simpl;
    [|destruct (String.prefix "html-" kind); simpl];
    rewrite Hclick; simpl; rewrite Hscene; simpl;
    (split_and!; [done..|apply in_or_app; right; by left]).
Qed.

(** X24. A puzzle whose identifier is falsy (zero, the empty string) can
    be opened but not answered: [show] makes it current and shows it, and
    [checkAnswer] then returns at once and sends nothing. *)
Theorem falsy_id_opens_but_cannot_be_answered
    (puzzleId puzzle : value) (h : heap) (kind : string) :
  find puzzleId (playerPuzzles h) = Normal puzzle ->
  to_boolean puzzle = true ->
  to_boolean (prop "isLocked" puzzle) = false ->
  to_boolean (prop "isCompleted" puzzle) = false ->
  prop "type" puzzle = VStr kind ->
  to_boolean puzzleId = false ->
  let h' := (show_found puzzleId h).1 in
  currentPuzzleId h' = puzzleId
  /\ modal_shown (view h') = true
  /\ forall turns, run (checkAnswer h') turns = ([], Some h').
Proof.
  intros Hfind Hp Hl Hc Hty Hfalsy.
  unfold show_found. rewrite Hfind, Hp, Hl, Hc, Hty. simpl.
  destruct (String.eqb kind "info"); simpl;
    [|destruct (String.prefix "html-" kind); simpl];
    (split_and!; [done..|]); intros turns; unfold checkAnswer; simpl;
    by rewrite Hfalsy.
Qed.

(** X25. However the load of an HTML puzzle ends, it leaves the current
    puzzle, the puzzle list and the storage alone.  Only a success status
    whose document holds the selected element puts that element on the
    page, without logging and without touching the modal, and hands the
    puzzle's initializer to the timer; every other end shows the error view
    and schedules nothing. *)
Theorem html_load_installs_or_reports
    (load : html_load) (result : GameAPI.fetch_result) (h : heap) :
  let r := loadHtmlPuzzle load result h in
  currentPuzzleId r.1 = currentPuzzleId h
  /\ playerPuzzles r.1 = playerPuzzles h
  /\ localStorage r.1 = localStorage h
  /\ ((exists response container,
         result = GameAPI.Responded response
         /\ GameAPI.ok response = true
         /\ querySelector (GameAPI.body response) (to_string (hl_selector load))
            = Normal (Some container)
         /\ puzzleContent (view r.1) = container
         /\ modal_shown (view r.1) = modal_shown (view h)
         /\ console r.1 = console h
         /\ r.2 = hl_callback load)
      \/ (error_view (view r.1) /\ r.2 = None)).
Proof.
  intros r. subst r. unfold loadHtmlPuzzle.
  destruct result as [e|resp]; simpl; [by split_and!; [..|right]|].
  destruct (GameAPI.ok resp) eqn:Hok; simpl; [|by split_and!; [..|right]].
  destruct (querySelector _ _) as [[container|]|e] eqn:Hq; simpl;
    [|by split_and!; [..|right]..].
  split_and!; try done. left. by exists resp, container.
Qed.

End WithDOM.

(** *** The statements above on concrete pages *)

Lemma corrupt_snapshot_is_removed_witness :
  exists h0 final,
    run (constructor demo_api demo_page corrupt_storage []) [quiet (Failed boom)]
    = ([(GameAPI.getPlayerPuzzles demo_api, h0)], Some final)
    /\ localStorage h0 = delete "playerPuzzles" corrupt_storage
    /\ localStorage final !! "playerPuzzles" = None.
Proof.
  destruct (corrupt_snapshot_is_removed demo_api demo_page corrupt_storage [] "{oops"
              (VError "SyntaxError" "Unexpected token in JSON") boom)
    as (h0 & final & Hrun & Hgone & _ & _ & Hnone & _).
  - reflexivity.
  - discriminate.
  - left. by vm_compute.
  - exists h0, final. split; [exact Hrun|]. split; [exact Hgone|exact Hnone].
Defined.

Lemma persisted_snapshot_round_trip_witness :
  exists final restored,
    run (loadPlayerPuzzles demo_heap) [quiet (Resolved (VArr demo_puzzles))]
    = ([(GameAPI.getPlayerPuzzles demo_api, demo_heap)], Some final)
    /\ run (constructor demo_api demo_page (localStorage final) []) []
       = ([], Some restored)
    /\ playerPuzzles restored = VArr demo_puzzles.
Proof.
  destruct (persisted_snapshot_round_trip demo_heap (VArr demo_puzzles) (fun h => h)
              demo_page []) as (final & Hrun & _ & Hnext).
  - intros H. vm_compute in H. discriminate H.
  - vm_compute. reflexivity.
  - simpl in Hnext. destruct Hnext as (restored & Hquiet & Hmem).
    exists final, restored. split; [exact Hrun|]. split; [apply Hquiet|exact Hmem].
Defined.

Lemma reset_invalidates_snapshot_witness :
  let r := GameAPI.resetPlayerId 1700000000001 "k3j9x0q1z" demo_api demo_storage in
  GameAPI.playerId r.1 = "player_1700000000001_k3j9x0q1z"
  /\ r.2 !! "playerPuzzles" = Some (MiniJSON.stringify demo_snapshot)
  /\ exists h0 k,
       constructor r.1 demo_page r.2 [] = Await (GameAPI.getPlayerPuzzles r.1) h0 k
       /\ playerPuzzles h0 = VArr [].
Proof.
  destruct (reset_invalidates_snapshot demo_api 1700000000001 "k3j9x0q1z" demo_page
              demo_storage [] (MiniJSON.stringify demo_snapshot) demo_snapshot "player_1_abc")
    as (Hid & _ & Hkept & h0 & k & Hfetch & Hempty & _).
  - reflexivity.
  - vm_compute. reflexivity.
  - reflexivity.
  - intros H. vm_compute in H. discriminate H.
  - split; [exact Hid|]. split; [exact Hkept|].
    exists h0, k. split; [exact Hfetch|exact Hempty].
Defined.

Lemma wrong_answer_keeps_session_witness :
  exists call final,
    run (checkAnswer demo_heap) [quiet (Resolved wrong)] = ([(call, demo_heap)], Some final)
    /\ currentPuzzleId final = VStr "chair-puzzle"
    /\ input_value (view final) = ""
    /\ feedback (view final) = Some ("❌ 정답이 아닙니다.", "#ff6b6b").
Proof.
  destruct (wrong_answer_keeps_session demo_heap wrong (VBool false) (fun h => h) []
              eq_refl eq_refl eq_refl)
    as (call & final & Hrun & Hcur & _ & _ & _ & _ & Hinput & Hfeedback).
  exists call, final. split; [exact Hrun|]. split; [exact Hcur|].
  split; [exact Hinput|exact Hfeedback].
Defined.

Lemma unreadable_response_shows_error_witness :
  exists call final,
    run (checkAnswer demo_heap) [quiet (Resolved VNull)] = ([(call, demo_heap)], Some final)
    /\ error_view (view final)
    /\ currentPuzzleId final = VStr "chair-puzzle".
Proof.
  destruct (unreadable_response_shows_error demo_heap VNull
              (type_error "Cannot read properties of null") (fun h => h) []
              eq_refl eq_refl)
    as (call & final & Hrun & _ & Hview & Hcur & _).
  exists call, final. split; [exact Hrun|]. split; [exact Hview|exact Hcur].
Defined.

Lemma dismissed_answer_completes_null_witness :
  exists submitted later,
    calls (checkAnswer demo_heap)
          [(Resolved correct, hide); quiet (Resolved VNull);
           quiet (Resolved (VArr demo_puzzles))]
    = submitted :: GameAPI.completePuzzle demo_api VNull :: later
    /\ GameAPI.bridgeArgs (GameAPI.completePuzzle demo_api VNull)
       = [VStr "player_1_abc"; VNull].
Proof.
  destruct (dismissed_answer_completes_null demo_heap correct (VBool true)
              (Resolved VNull) (Resolved (VArr demo_puzzles)) (fun h => h) (fun h => h)
              eq_refl eq_refl eq_refl)
    as (submitted & later & Hcalls & _ & Hargs).
  exists submitted, later. split; [exact Hcalls|exact Hargs].
Defined.

Lemma show_on_unusable_list_fails_witness :
  exists final,
    run (show (VStr "chair-puzzle") (with_puzzles VNull)) [] = ([], Some final)
    /\ error_view (view final)
    /\ currentPuzzleId final = VNull.
Proof.
  assert (Hlen : length_is_zero (playerPuzzles (with_puzzles VNull)) <> Normal true)
    by discriminate.
  destruct (show_on_unusable_list_fails (VStr "chair-puzzle") (with_puzzles VNull)
              eq_refl Hlen []) as (final & Hrun & Hview & _ & Hcur & _).
  exists final. split; [exact Hrun|]. split; [exact Hview|exact Hcur].
Defined.

Lemma show_after_failed_load_reports_not_found_witness :
  exists final,
    run (show (VStr "chair-puzzle") (with_puzzles (VArr []))) [quiet (Failed boom)]
    = ([(GameAPI.getPlayerPuzzles demo_api, with_puzzles (VArr []))], Some final)
    /\ puzzleContent (view final) = paragraph "퍼즐을 찾을 수 없습니다.".
Proof.
  destruct (show_after_failed_load_reports_not_found (VStr "chair-puzzle")
              (with_puzzles (VArr [])) boom eq_refl)
    as (final & Hrun & _ & Hcontent & _).
  exists final. split; [exact Hrun|exact Hcontent].
Defined.

Lemma show_record_without_type_witness :
  let h' := (show_found (VStr "broken") (with_puzzles (VArr [typeless_puzzle]))).1 in
  error_view (view h') /\ currentPuzzleId h' = VStr "broken".
Proof.
  destruct (show_record_without_type (VStr "broken") typeless_puzzle
              (with_puzzles (VArr [typeless_puzzle])) eq_refl eq_refl eq_refl eq_refl)
    as (Hview & Hcur & _).
  - intros s. discriminate.
  - split; [exact Hview|exact Hcur].
Defined.

Lemma show_keeps_stale_button_witness :
  let h' := (show_found (VStr "chair-puzzle") (hide solved_heap)).1 in
  currentPuzzleId h' = VStr "chair-puzzle"
  /\ submit_text (view h') = "다음"
  /\ submit_onclick (view h') = ContinueHandler (VStr "hallway")
  /\ idle (click_handler (submit_onclick (view h')) h').
Proof.
  destruct (show_keeps_stale_button (VStr "chair-puzzle")
              (VObj [("id", VStr "chair-puzzle"); ("title", VStr "chair");
                     ("type", VStr "text"); ("isLocked", VBool false);
                     ("isCompleted", VBool false)])
              solved_heap "text" (VStr "hallway")
              eq_refl eq_refl eq_refl eq_refl eq_refl eq_refl eq_refl)
    as (Hcur & Htext & Hclick & Hidle & _).
  split; [exact Hcur|]. split; [exact Htext|]. split; [exact Hclick|exact Hidle].
Defined.

Lemma falsy_id_opens_but_cannot_be_answered_witness :
  let h' := (show_found (VNum 0) (with_puzzles (VArr [zero_puzzle]))).1 in
  currentPuzzleId h' = VNum 0
  /\ modal_shown (view h') = true
  /\ run (checkAnswer h') [quiet (Resolved correct)] = ([], Some h').
Proof.
  destruct (falsy_id_opens_but_cannot_be_answered (VNum 0) zero_puzzle
              (with_puzzles (VArr [zero_puzzle])) "text"
              eq_refl eq_refl eq_refl eq_refl eq_refl eq_refl)
    as (Hcur & Hshown & Hnothing).
  split; [exact Hcur|]. split; [exact Hshown|apply Hnothing].
Defined.

End ManagerMore.
